(** * Variable expansion of ucfg (vendor/github.com/urso/ucfg/variables.go)

    A shallow embedding of the lexer, the stack parser, the expression
    tree with its evaluator and the reference resolver, followed by the
    properties of the expansion engine.

    Conventions of the embedding.
    - A Go [string] is a sequence of bytes: [gostring = list ascii].
    - A Go result pair [(T, error)] is the sum [res T]: every caller in
      the file tests [err] before it looks at the value.
    - A run that ends in a Go runtime panic (index out of range, call on a
      nil interface) has no result: the functions that can reach one
      return an [option], and [None] is the panic.
    - [len], [off] and [idx] are naturals and [varcount] is an integer; all
      are bounded by the length of the input, far below the range of [int]. *)

From Stdlib Require Import Strings.String Strings.Ascii.
From Stdlib Require Import ZArith Lia Bool Arith.
From Stdlib Require Import Lists.List.
Import ListNotations.

Set Warnings "-register-all".

(** ** Go strings *)

Definition gostring := list ascii.

(** A string literal of the source, as bytes. *)
Definition go (s : string) : gostring := list_ascii_of_string s.

Fixpoint gostring_eqb (a b : gostring) : bool :=
  match a, b with
  | [], [] => true
  | x :: a', y :: b' => Ascii.eqb x y && gostring_eqb a' b'
  | _, _ => false
  end.

(** [strings.IndexAny(s, chars)] for a set [chars] of ASCII characters: the
    index of the first byte of [s] that is in [chars]; Go's [-1] is [None]. *)
Fixpoint IndexAny (s chars : gostring) : option nat :=
  match s with
  | [] => None
  | c :: s' =>
      if existsb (Ascii.eqb c) chars then Some 0
      else option_map S (IndexAny s' chars)
  end.

(** ** Tokens *)

Inductive tokenType := tokOpen | tokClose | tokSep | tokString.

Record token := mkToken { typ : tokenType; val : gostring }.

Definition opDefault : gostring := go ":".
Definition opAlternative : gostring := go ":+".
Definition opError : gostring := go ":?".

Definition openToken := mkToken tokOpen (go "${").
Definition closeToken := mkToken tokClose (go "}").
Definition sepDefToken := mkToken tokSep opDefault.
Definition sepAltToken := mkToken tokSep opAlternative.
Definition sepErrToken := mkToken tokSep opError.

(** ** The lexer

    The goroutine of [lexer] sends its tokens on a channel that
    [parseVarExp] drains in order; the error channel is closed without a
    send.  The embedding is the list of tokens sent. *)

(** The closure [strToken]: a string token unless the text is empty. *)
Definition strToken (s : gostring) : list token :=
  match s with
  | [] => []
  | _ => [mkToken tokString s]
  end.

(** The deferred function: what is left of [content] is flushed. *)
Definition deferred (content : gostring) : list token :=
  if 0 <? length content then [mkToken tokString content] else [].

(** One iteration of the scanning loop, after the test [len(content) > 0]. *)
Inductive iteration :=
| Return                              (* [return]: the deferred flush runs *)
| Continue (sent : list token) (varcount : Z) (content : gostring) (off : nat)
| IndexPanic.                         (* an index out of range *)

Definition trigger_set (varcount : Z) : gostring :=
  if (varcount =? 0)%Z then go "$" else go "$:}".

Definition lex_step (varcount : Z) (content : gostring) (off : nat) : iteration :=
  match IndexAny (skipn off content) (trigger_set varcount) with
  | None => Return
  | Some i =>
      let idx := i + off in
      let off := idx + 1 in
      match nth_error content idx with
      | None => IndexPanic
      | Some c =>
          if Ascii.eqb c ":" then
            if length content <=? off then Return
            else
              match nth_error content off with
              | None => IndexPanic
              | Some n =>
                  if Ascii.eqb n "+" then
                    Continue (strToken (firstn idx content) ++ [sepAltToken])
                             varcount (skipn (off + 1) content) 0
                  else if Ascii.eqb n "?" then
                    Continue (strToken (firstn idx content) ++ [sepErrToken])
                             varcount (skipn (off + 1) content) 0
                  else
                    Continue (strToken (firstn idx content) ++ [sepDefToken])
                             varcount (skipn off content) 0
              end
          else if Ascii.eqb c "}" then
            Continue (strToken (firstn idx content) ++ [closeToken])
                     (varcount - 1)%Z (skipn off content) 0
          else if Ascii.eqb c "$" then
            if length content <=? off then Return
            else
              match nth_error content off with
              | None => IndexPanic
              | Some n =>
                  if Ascii.eqb n "$" then
                    (* escape: one of the two characters is deleted *)
                    Continue [] varcount
                             (firstn off content ++ skipn (off + 1) content) off
                  else if Ascii.eqb n "{" then
                    Continue (strToken (firstn idx content) ++ [openToken])
                             (varcount + 1)%Z (skipn (off + 1) content) 0
                  else
                    (* no case of the inner switch: nothing is sent *)
                    Continue [] varcount (skipn off content) 0
              end
          else
            Continue [] varcount (skipn off content) 0
      end
  end.

(** The loop [for len(content) > 0].  [None]: the fuel ran out, or an index
    was out of range; [lexer_total] shows that neither happens. *)
Fixpoint lex_loop (fuel : nat) (varcount : Z) (content : gostring) (off : nat)
  : option (list token) :=
  match fuel with
  | O => None
  | S fuel' =>
      if 0 <? length content then
        match lex_step varcount content off with
        | Return => Some (deferred content)
        | Continue sent varcount' content' off' =>
            option_map (app sent) (lex_loop fuel' varcount' content' off')
        | IndexPanic => None
        end
      else Some (deferred content)
  end.

Definition lexer (input : gostring) : option (list token) :=
  lex_loop (S (length input)) 0%Z input 0.

(** ** Collaborators

    The configuration tree, its values, the lookup paths and the lookup
    itself live in other files of the package; the engine uses them through
    the interface below. *)

Class Types := {
  cfgPath : Type;   (* a parsed lookup path *)
  value : Type;     (* a (non-nil) configuration value *)
  Fields : Type;    (* what a configuration node stores *)
  foreign : Type    (* errors made by collaborators *)
}.

Section Model.
Context {T : Types}.

Inductive error :=
| ErrMissing
| errors_New (text : gostring)
| fmt_Errorf (format arg : gostring)
| Foreign (e : foreign).

(** Go's [(T, error)]: [Ok t] is [(t, nil)], [Err e] is [(_, e)]. *)
Inductive res (A : Type) :=
| Ok (a : A)
| Err (e : error).
Arguments Ok {A} a.
Arguments Err {A} e.

(** Modelled from the spec: the type [Config] is declared outside this file;
    a configuration node has a [Parent()], which is absent at the root of its
    tree.  A [*Config] that may be nil is an [option Config]. *)
Inductive Config :=
| mkConfig (fields : Fields) (parent : option Config).

Definition Parent (cfg : Config) : option Config :=
  match cfg with mkConfig _ p => p end.

(** The two fields of [options] that the engine reads. *)
Record options := mkOptions {
  env : list (option Config);
  resolvers : list (gostring -> res gostring)
}.

(** An interface value of type [value] that may be nil is an [option value]. *)
Class Collaborators := {
  parsePath : gostring -> gostring -> cfgPath;
  Path_String : cfgPath -> gostring;
  GetValue : cfgPath -> Config -> options -> res (option value);
  toString : value -> options -> res gostring;
  (* [newString(context{field: key}, nil, v)] *)
  newString : gostring -> gostring -> value
}.
Context {K : Collaborators}.

(** ** The expression tree

    The four implementations of the interface [varEvaler].  [right] of an
    [expansion] is nil when the frame saw no separator. *)
Inductive varEvaler :=
| constExp (s : gostring)
| reference (Path : cfgPath)
| splice (pieces : list varEvaler)
| expansion (left : varEvaler) (right : option varEvaler)
            (pathSep : gostring) (op : gostring).

Definition newReference (p : cfgPath) : varEvaler := reference p.

(** ** Reference resolution *)

Fixpoint cfgRoot_loop (cfg : Config) : Config :=
  match Parent cfg with
  | None => cfg
  | Some p => cfgRoot_loop p
  end.

Definition cfgRoot (cfg : option Config) : option Config :=
  match cfg with
  | None => None
  | Some c => Some (cfgRoot_loop c)
  end.

(** The first loop of [resolve].  [env] is used as a stack whose top is its
    last element; [pending] holds it top first, so that
    [cfg = env[len(env)-1]; env = env[:len(env)-1]] is taking the head.
    The loop either returns ([inl]) or breaks with the current [err]
    ([inr], [None] being nil). *)
Fixpoint resolve_trees (Path : cfgPath) (opts : options)
    (cfg : option Config) (pending : list (option Config))
  : res (option value) + option error :=
  match cfgRoot cfg with
  | None => inl (Err ErrMissing)
  | Some root =>
      match GetValue Path root opts with
      | Ok None => inr None
      | Ok (Some v) => inl (Ok (Some v))
      | Err e =>
          match pending with
          | [] => inr (Some e)
          | top :: pending' => resolve_trees Path opts top pending'
          end
      end
  end.

(** [return nil, err] *)
Definition return_nil (err : option error) : res (option value) :=
  match err with
  | None => Ok None
  | Some e => Err e
  end.

(** The loop over the callbacks, [i] from [len-1] down to [0]: [rs] is the
    list of resolvers still to call, most recently registered first. *)
Fixpoint try_resolvers (key : gostring) (rs : list (gostring -> res gostring))
    (err : option error) : res (option value) :=
  match rs with
  | [] => return_nil err
  | resolver :: rs' =>
      match resolver key with
      | Ok v => Ok (Some (newString key v))
      | Err e => try_resolvers key rs' (Some e)
      end
  end.

Definition resolve (Path : cfgPath) (cfg : option Config) (opts : options)
  : res (option value) :=
  match resolve_trees Path opts cfg (rev (env opts)) with
  | inl result => result
  | inr err =>
      if 0 <? length (resolvers opts) then
        try_resolvers (Path_String Path) (rev (resolvers opts)) err
      else return_nil err
  end.

Definition reference_eval (Path : cfgPath) (cfg : option Config) (opts : options)
  : res gostring :=
  match resolve Path cfg opts with
  | Err e => Err e
  | Ok None => Err (fmt_Errorf (go "can not resolve reference: %v") (Path_String Path))
  | Ok (Some v) => toString v opts
  end.

(** ** Evaluation

    [None] is the nil dereference of [e.right.eval] on an expansion built
    without a right side. *)
Fixpoint eval (e : varEvaler) (cfg : option Config) (opts : options)
  : option (res gostring) :=
  match e with
  | constExp s => Some (Ok s)
  | reference Path => Some (reference_eval Path cfg opts)
  | splice pieces =>
      (fix range (ps : list varEvaler) (buf : gostring) :=
         match ps with
         | [] => Some (Ok buf)
         | p :: ps' =>
             match eval p cfg opts with
             | None => None
             | Some (Err err) => Some (Err err)
             | Some (Ok s) => range ps' (buf ++ s)
             end
         end) pieces []
  | expansion e_left e_right pathSep op =>
      let right_eval :=
        match e_right with
        | None => None
        | Some r => eval r cfg opts
        end in
      if gostring_eqb op opDefault then
        match eval e_left cfg opts with
        | None => None
        | Some (Err _) => right_eval
        | Some (Ok path) =>
            if gostring_eqb path [] then right_eval
            else
              match reference_eval (parsePath path pathSep) cfg opts with
              | Err _ => right_eval
              | Ok v => if gostring_eqb v [] then right_eval else Some (Ok v)
              end
        end
      else if gostring_eqb op opAlternative then
        match eval e_left cfg opts with
        | None => None
        | Some (Err _) => Some (Ok [])
        | Some (Ok path) =>
            if gostring_eqb path [] then Some (Ok [])
            else
              match resolve (parsePath path pathSep) cfg opts with
              | Err _ | Ok None => Some (Ok [])
              | Ok (Some _) => right_eval
              end
        end
      else if gostring_eqb op opError then
        let fail :=
          match right_eval with
          | None => None
          | Some (Err err) => Some (Err err)
          | Some (Ok errStr) => Some (Err (errors_New errStr))
          end in
        match eval e_left cfg opts with
        | None => None
        | Some (Err _) => fail
        | Some (Ok path) =>
            if gostring_eqb path [] then fail
            else
              match reference_eval (parsePath path pathSep) cfg opts with
              | Err _ => fail
              | Ok str => if gostring_eqb str [] then fail else Some (Ok str)
              end
        end
      else if gostring_eqb op [] then
        match eval e_left cfg opts with
        | None => None
        | Some (Err err) => Some (Err err)
        | Some (Ok path) => Some (reference_eval (parsePath path pathSep) cfg opts)
        end
      else Some (Err (fmt_Errorf (go "Unknown expansion op: %v") op))
  end.

(** ** The parser *)

(** The parser states [stLeft = 0] and [stRight = 1], which also index the
    two piece lists of a frame. *)
Inductive side := stLeft | stRight.

Record parseState := mkParseState {
  st : side;
  isvar : bool;
  op : gostring;
  pieces_left : list varEvaler;    (* [pieces[stLeft]] *)
  pieces_right : list varEvaler    (* [pieces[stRight]] *)
}.

Definition pieces (s : parseState) (i : side) : list varEvaler :=
  match i with
  | stLeft => pieces_left s
  | stRight => pieces_right s
  end.

(** [st.pieces[st.st] = append(st.pieces[st.st], piece)] *)
Definition append_piece (s : parseState) (piece : varEvaler) : parseState :=
  match st s with
  | stLeft => mkParseState (st s) (isvar s) (op s) (pieces_left s ++ [piece]) (pieces_right s)
  | stRight => mkParseState (st s) (isvar s) (op s) (pieces_left s) (pieces_right s ++ [piece])
  end.

(** The closure [extract] of [finalize]. *)
Definition extract (ps : list varEvaler) : varEvaler :=
  match ps with
  | [] => constExp []
  | [p] => p
  | _ => splice ps
  end.

Definition finalize (s : parseState) (pathSep : gostring) : res varEvaler :=
  if negb (isvar s) then
    Err (errors_New (go "fatal: processing non-variable state"))
  else if length (pieces s stLeft) =? 0 then
    Err (errors_New (go "empty expansion"))
  else
    match st s with
    | stLeft =>
        let ps := pieces s stLeft in
        if length ps =? 0 then Ok (constExp [])
        else
          match ps with
          | [constExp str] => Ok (newReference (parsePath str pathSep))
          | _ => Ok (expansion (splice ps) None pathSep [])
          end
    | stRight =>
        Ok (expansion (extract (pieces s stLeft))
                      (Some (extract (pieces s stRight))) pathSep (op s))
    end.

(** The parser loop.  The slice [stack] is held top first: the head of the
    list is [stack[len(stack)-1]].  [None]: an index out of range. *)
Fixpoint parser_loop (lex : list token) (pathSep : gostring)
    (stack : list parseState) : option (res (list parseState)) :=
  match lex with
  | [] => Some (Ok stack)
  | tok :: lex' =>
      match typ tok with
      | tokOpen =>
          parser_loop lex' pathSep (mkParseState stLeft true [] [] [] :: stack)
      | tokClose =>
          match stack with
          | [] => None
          | top :: stack' =>
              match finalize top pathSep with
              | Err err => Some (Err err)
              | Ok piece =>
                  match stack' with
                  | [] => None
                  | s :: below =>
                      parser_loop lex' pathSep (append_piece s piece :: below)
                  end
              end
          end
      | tokSep =>
          match stack with
          | [] => None
          | s :: below =>
              if negb (isvar s) then
                Some (Err (errors_New (go "default separator not within expansion")))
              else
                match st s with
                | stRight => Some (Err (errors_New (go "unexpected ':'")))
                | stLeft =>
                    parser_loop lex' pathSep
                      (mkParseState stRight (isvar s) (val tok)
                                    (pieces_left s) (pieces_right s) :: below)
                end
          end
      | tokString =>
          match stack with
          | [] => None
          | s :: below =>
              parser_loop lex' pathSep (append_piece s (constExp (val tok)) :: below)
          end
      end
  end.

Definition parseVarExp (lex : list token) (pathSep : gostring)
  : option (res varEvaler) :=
  match parser_loop lex pathSep [mkParseState stLeft false [] [] []] with
  | None => None
  | Some (Err err) => Some (Err err)
  | Some (Ok stack) =>
      if 1 <? length stack then Some (Err (errors_New (go "missing '}'")))
      else
        match stack with
        | [] => Some (Err (errors_New (go "fatal: expansion parse state empty")))
        | bottom :: _ =>
            let result := pieces bottom stLeft in
            match result with
            | [r] => Some (Ok r)
            | _ => Some (Ok (splice result))
            end
        end
  end.

(** [parseSplice]: the receive from the error channel yields nil. *)
Definition parseSplice (input pathSep : gostring) : option (res varEvaler) :=
  match lexer input with
  | None => None
  | Some lex => parseVarExp lex pathSep
  end.

(** Modelled from the spec: the entry point [expand], "composing lex ->
    parse -> evaluate"; the callers of [parseSplice] and [eval] are in other
    files of the package. *)
Definition expand (input pathSep : gostring) (cfg : option Config)
    (opts : options) : option (res gostring) :=
  match parseSplice input pathSep with
  | None => None
  | Some (Err err) => Some (Err err)
  | Some (Ok e) => eval e cfg opts
  end.

End Model.

Arguments Err {T A} e.
Arguments Ok {T A} a.

(** ** A concrete configuration

    The smallest collaborators that exercise every path of the engine: a
    node stores an association list from keys to values, a key may be bound
    to the nil value, a path is its text, and a lookup of an unbound key
    fails with [ErrMissing]. *)
Module Demo.

#[export] Instance demo_types : Types := {|
  cfgPath := gostring;
  value := gostring;
  Fields := list (gostring * option gostring);
  foreign := Empty_set
|}.

Fixpoint lookup (key : gostring) (fs : list (gostring * option gostring))
  : res (option gostring) :=
  match fs with
  | [] => Err ErrMissing
  | (k, v) :: fs' => if gostring_eqb k key then Ok v else lookup key fs'
  end.

#[export] Instance demo_collab : Collaborators := {|
  parsePath path sep := path;
  Path_String p := p;
  GetValue p cfg opts := match cfg with mkConfig fs _ => lookup p fs end;
  toString v opts := Ok v;
  newString field v := v
|}.

Definition node (fs : list (gostring * option gostring)) : Config :=
  mkConfig fs None.

Definition tree (fs : list (gostring * option gostring)) : option Config :=
  Some (node fs).

Definition child (fs : list (gostring * option gostring)) (parent : option Config)
  : option Config :=
  Some (mkConfig fs parent).

Definition no_options : options := mkOptions [] [].

(** A lookup that every channel can answer: the primary tree does not bind
    [key]; of the two fallback roots the one supplied last binds it to the
    nil value and the one supplied first to a value; a callback answers. *)
Definition key : gostring := go "key".
Definition primary : option Config := tree [(go "other", Some (go "1"))].
Definition older_root : option Config := tree [(key, Some (go "from root"))].
Definition recent_root : option Config := tree [(key, None)].
Definition answering : gostring -> res gostring :=
  fun _ => Ok (go "from callback").
Definition silent : gostring -> res gostring :=
  fun _ => Err ErrMissing.
Definition every_channel : options :=
  mkOptions [older_root; recent_root] [answering].

End Demo.

(** ** Vocabulary of the properties *)



(** A string token carries text. *)
Definition has_text (t : token) : Prop :=
  typ t = tokString -> val t <> [].

(** Starting [depth] expansions deep, no close token arrives at depth 0. *)
Fixpoint closes_matched (depth : nat) (lex : list token) : bool :=
  match lex with
  | [] => true
  | t :: lex' =>
      match typ t with
      | tokOpen => closes_matched (S depth) lex'
      | tokClose =>
          match depth with
          | O => false
          | S d => closes_matched d lex'
          end
      | _ => closes_matched depth lex'
      end
  end.

(** One of the three operators that a separator token carries. *)
Definition known_op (op : gostring) : bool :=
  gostring_eqb op opDefault || gostring_eqb op opAlternative ||
  gostring_eqb op opError.

(** A well-formed token stream, read [depth] expansions deep: string tokens
    carry text, separators carry an operator and stand inside an expansion,
    and no close token arrives at depth 0. *)
Fixpoint stream_ok (depth : nat) (lex : list token) : bool :=
  match lex with
  | [] => true
  | t :: lex' =>
      match typ t with
      | tokOpen => stream_ok (S depth) lex'
      | tokClose =>
          match depth with
          | O => false
          | S d => stream_ok d lex'
          end
      | tokSep => (0 <? depth) && known_op (val t) && stream_ok depth lex'
      | tokString => negb (gostring_eqb (val t) []) && stream_ok depth lex'
      end
  end.

(** Text without any of the characters the scan looks for inside an
    expansion. *)
Definition inner_text (p : gostring) : bool :=
  forallb (fun c => negb (existsb (Ascii.eqb c) (go "$:}"))) p.

(** The first character, if any, does not turn [:] into [:+] or [:?]. *)
Definition plain_start (p : gostring) : bool :=
  match p with
  | [] => true
  | c :: _ => negb (Ascii.eqb c "+") && negb (Ascii.eqb c "?")
  end.

Section Vocabulary.
Context {T : Types} {K : Collaborators}.

(** The stack of a parse that is [depth] expansions deep: [depth] frames of
    open expansions above the root frame, which is no expansion. *)
Fixpoint well_stacked (depth : nat) (stack : list parseState) : Prop :=
  match depth, stack with
  | O, [root] => isvar root = false /\ st root = stLeft
  | S d, s :: below => isvar s = true /\ well_stacked d below
  | _, _ => False
  end.

(** Every piece of the frame satisfies [P]. *)
Definition frame_holds (P : varEvaler -> Prop) (s : parseState) : Prop :=
  Forall P (pieces_left s) /\ Forall P (pieces_right s).

(** The error of [finalize] on a frame that is no expansion. *)
Definition fatal_state : error :=
  errors_New (go "fatal: processing non-variable state").

(** The failure of the operator [:?]: the message is the evaluation of the
    right side, whose own failure propagates. *)
Definition user_error (message : option (res gostring)) : option (res gostring) :=
  match message with
  | None => None
  | Some (Err err) => Some (Err err)
  | Some (Ok errStr) => Some (Err (errors_New errStr))
  end.

(** [e.right.eval(cfg, opts)] *)
Definition eval_right (r : option varEvaler) (cfg : option Config)
    (opts : options) : option (res gostring) :=
  match r with
  | None => None
  | Some r' => eval r' cfg opts
  end.

(** The tree [c] is there and the lookup of [Path] from its root fails. *)
Definition lookup_fails (Path : cfgPath) (opts : options) (c : option Config)
  : Prop :=
  exists root err, cfgRoot c = Some root /\ GetValue Path root opts = Err err.

(** The callback does not answer [key]. *)
Definition callback_fails (key : gostring) (f : gostring -> res gostring)
  : Prop :=
  exists err, f key = Err err.

(** Every [reference] node of the tree holds the path of a non-empty text. *)
Fixpoint refs_from_text (pathSep : gostring) (e : varEvaler) : Prop :=
  match e with
  | constExp _ => True
  | reference Path => exists str, str <> [] /\ Path = parsePath str pathSep
  | splice ps =>
      (fix all (ps : list varEvaler) : Prop :=
         match ps with
         | [] => True
         | p :: ps' => refs_from_text pathSep p /\ all ps'
         end) ps
  | expansion l r _ _ =>
      refs_from_text pathSep l /\
      match r with
      | None => True
      | Some r' => refs_from_text pathSep r'
      end
  end.

(** A piece of a frame: its references come from text, and it is no empty
    constant. *)
Definition text_piece (pathSep : gostring) (e : varEvaler) : Prop :=
  refs_from_text pathSep e /\ forall s, e = constExp s -> s <> [].







(** The loop of [splice.eval], from the buffer [buf]. *)
Fixpoint range_pieces (ps : list varEvaler) (cfg : option Config)
    (opts : options) (buf : gostring) : option (res gostring) :=
  match ps with
  | [] => Some (Ok buf)
  | p :: ps' =>
      match eval p cfg opts with
      | None => None
      | Some (Err err) => Some (Err err)
      | Some (Ok s) => range_pieces ps' cfg opts (buf ++ s)
      end
  end.

(** Every [expansion] of the tree has a right side exactly when it has an
    operator, and the operator is one of the three. *)
Fixpoint well_formed (e : varEvaler) : bool :=
  match e with
  | constExp _ | reference _ => true
  | splice ps => forallb well_formed ps
  | expansion l None _ op => well_formed l && gostring_eqb op []
  | expansion l (Some r) _ op => well_formed l && well_formed r && known_op op
  end.

(** A frame of a parse: its pieces satisfy [P], and once it has switched to
    the right side its operator is one of the three. *)
Definition frame_ready (P : varEvaler -> Prop) (s : parseState) : Prop :=
  frame_holds P s /\ (st s = stRight -> known_op (op s) = true).

(** The pieces that a stretch of text adds to a frame: none when it is
    empty. *)
Definition text_pieces (x : gostring) : list varEvaler :=
  match x with
  | [] => []
  | _ => [constExp x]
  end.

(** The result of a piece between the texts [pre] and [post]. *)
Definition in_context (pre post : gostring) (r : option (res gostring))
  : option (res gostring) :=
  match r with
  | Some (Ok s) => Some (Ok (pre ++ s ++ post))
  | other => other
  end.

(** The errors of the parser that an input can cause. *)
Definition parse_errors : list error :=
  [errors_New (go "empty expansion"); errors_New (go "unexpected ':'");
   errors_New (go "missing '}'")].

End Vocabulary.

(** * Properties *)

(** ** Strings and [IndexAny] *)

Lemma gostring_eqb_eq (a b : gostring) : gostring_eqb a b = true <-> a = b.
Proof.
  revert b; induction a as [|x a IH]; intros [|y b]; simpl; split;
    try congruence; try reflexivity.
  - intros H. apply andb_true_iff in H as [Hx Hab].
    apply Ascii.eqb_eq in Hx. apply IH in Hab. congruence.
  - intros H. injection H as -> ->.
    apply andb_true_iff; split; [apply Ascii.eqb_refl | now apply IH].
Qed.

Lemma gostring_eqb_refl (a : gostring) : gostring_eqb a a = true.
Proof. now apply gostring_eqb_eq. Qed.

Lemma IndexAny_Some (s chars : gostring) (i : nat) :
  IndexAny s chars = Some i ->
  exists c, nth_error s i = Some c /\ existsb (Ascii.eqb c) chars = true.
Proof.
  revert i; induction s as [|c s IH]; simpl; intros i H; [discriminate|].
  destruct (existsb (Ascii.eqb c) chars) eqn:Hc.
  - injection H as <-. now exists c.
  - destruct (IndexAny s chars) as [j|]; [|discriminate].
    injection H as <-. simpl. now apply IH.
Qed.

Lemma IndexAny_lt (s chars : gostring) (i : nat) :
  IndexAny s chars = Some i -> i < length s.
Proof.
  intros H. apply IndexAny_Some in H as (c & Hc & _).
  apply nth_error_Some. congruence.
Qed.

Lemma IndexAny_none (s chars : gostring) :
  (forall c, In c s -> existsb (Ascii.eqb c) chars = false) ->
  IndexAny s chars = None.
Proof.
  induction s as [|c s IH]; simpl; intros H; [reflexivity|].
  rewrite (H c) by now left.
  rewrite IH; [reflexivity|]. intros d Hd. apply H. now right.
Qed.

Lemma IndexAny_first (p r chars : gostring) (c : ascii) :
  (forall d, In d p -> existsb (Ascii.eqb d) chars = false) ->
  existsb (Ascii.eqb c) chars = true ->
  IndexAny (p ++ c :: r) chars = Some (length p).
Proof.
  induction p as [|d p IH]; simpl; intros Hp Hc.
  - now rewrite Hc.
  - rewrite (Hp d) by now left.
    rewrite IH; [reflexivity| |exact Hc]. intros e He. apply Hp. now right.
Qed.

Lemma dollar_only (c : ascii) :
  existsb (Ascii.eqb c) (go "$") = true -> c = "$"%char.
Proof.
  simpl. rewrite orb_false_r. apply Ascii.eqb_eq.
Qed.

Lemma not_dollar (p : gostring) :
  ~ In "$"%char p ->
  forall d, In d p -> existsb (Ascii.eqb d) (go "$") = false.
Proof.
  intros Hp d Hd. simpl. rewrite orb_false_r.
  apply Ascii.eqb_neq. intros ->. now apply Hp.
Qed.

(** ** The scanning loop terminates *)

Ltac lex_cases :=
  repeat match goal with
    | H : Return = Continue _ _ _ _ |- _ => discriminate H
    | H : IndexPanic = Continue _ _ _ _ |- _ => discriminate H
    | H : Continue _ _ _ _ = Continue _ _ _ _ |- _ => injection H as <- <- <- <-
    | H : context [if ?b then _ else _] |- _ => destruct b eqn:?
    | H : context [match nth_error ?l ?n with _ => _ end] |- _ =>
        destruct (nth_error l n) eqn:?
    | |- context [if ?b then _ else _] => destruct b eqn:?
    end.

Lemma lex_step_progress vc content off sent vc' content' off' :
  off <= length content ->
  lex_step vc content off = Continue sent vc' content' off' ->
  off' <= length content' /\ length content' - off' < length content - off.
Proof.
  intros Hoff. unfold lex_step.
  destruct (IndexAny (skipn off content) (trigger_set vc)) as [i|] eqn:Hi;
    [|discriminate].
  apply IndexAny_lt in Hi. rewrite length_skipn in Hi.
  intros H. lex_cases;
    repeat match goal with
      | H : (_ <=? _) = false |- _ => apply Nat.leb_gt in H
      end;
    rewrite ?length_app, ?length_skipn, ?length_firstn; lia.
Qed.

Lemma lex_step_in_range vc content off :
  off <= length content -> lex_step vc content off <> IndexPanic.
Proof.
  intros Hoff. unfold lex_step.
  destruct (IndexAny (skipn off content) (trigger_set vc)) as [i|] eqn:Hi;
    [|discriminate].
  apply IndexAny_lt in Hi. rewrite length_skipn in Hi.
  destruct (nth_error content (i + off)) eqn:Hc.
  2:{ apply nth_error_None in Hc. lia. }
  repeat match goal with
    | |- context [if ?b then _ else _] => destruct b eqn:?
    | |- context [match nth_error ?l ?n with _ => _ end] =>
        destruct (nth_error l n) eqn:?
    | H : (_ <=? _) = false |- _ => apply Nat.leb_gt in H
    | H : nth_error _ _ = None |- _ => apply nth_error_None in H; lia
    end; discriminate.
Qed.

Lemma lex_loop_total fuel vc content off :
  off <= length content -> length content - off < fuel ->
  exists toks, lex_loop fuel vc content off = Some toks.
Proof.
  revert vc content off.
  induction fuel as [|fuel IH]; intros vc content off Hoff Hfuel; [lia|].
  simpl. destruct (0 <? length content); [|eauto].
  destruct (lex_step vc content off) as [|sent vc' content' off'|] eqn:Hs.
  - eauto.
  - apply lex_step_progress in Hs as [Hoff' Hlt]; [|exact Hoff].
    destruct (IH vc' content' off' Hoff') as [toks ->]; [lia|].
    simpl. eauto.
  - now apply lex_step_in_range in Hs.
Qed.

Lemma lex_loop_fuel fuel1 fuel2 vc content off :
  off <= length content ->
  length content - off < fuel1 -> length content - off < fuel2 ->
  lex_loop fuel1 vc content off = lex_loop fuel2 vc content off.
Proof.
  revert fuel2 vc content off.
  induction fuel1 as [|fuel1 IH]; intros [|fuel2] vc content off Hoff H1 H2;
    try lia.
  simpl. destruct (0 <? length content); [|reflexivity].
  destruct (lex_step vc content off) as [|sent vc' content' off'|] eqn:Hs;
    try reflexivity.
  apply lex_step_progress in Hs as [Hoff' Hlt]; [|exact Hoff].
  rewrite (IH fuel2); [reflexivity|exact Hoff'|lia|lia].
Qed.

Lemma lexer_total (input : gostring) : exists toks, lexer input = Some toks.
Proof. apply lex_loop_total; lia. Qed.

(** The lexer on an input whose first iteration continues. *)
Lemma lexer_unfold input sent vc content off :
  0 < length input ->
  lex_step 0 input 0 = Continue sent vc content off ->
  lexer input = option_map (app sent) (lex_loop (S (length content)) vc content off).
Proof.
  intros Hlen Hs. unfold lexer.
  change (lex_loop (S (length input)) 0 input 0) with
    (if 0 <? length input then
       match lex_step 0 input 0 with
       | Return => Some (deferred input)
       | Continue sent vc' content' off' =>
           option_map (app sent) (lex_loop (length input) vc' content' off')
       | IndexPanic => None
       end
     else Some (deferred input)).
  apply Nat.ltb_lt in Hlen. rewrite Hlen, Hs.
  apply lex_step_progress in Hs as [Hoff Hlt]; [|lia].
  f_equal. apply lex_loop_fuel; lia.
Qed.

(** ** Plain text, stray dollars and escapes in the scanner *)

Lemma lexer_no_dollar (input : gostring) :
  ~ In "$"%char input -> lexer input = Some (deferred input).
Proof.
  intros H. unfold lexer. simpl.
  destruct (0 <? length input); [|reflexivity].
  unfold lex_step. change (skipn 0 input) with input.
  change (trigger_set 0) with (go "$").
  now rewrite (@IndexAny_none input (go "$") (@not_dollar _ H)).
Qed.









(** ** What the scanner sends *)

Lemma closes_matched_strToken depth (x : gostring) (lex : list token) :
  closes_matched depth (strToken x ++ lex) = closes_matched depth lex.
Proof. now destruct x. Qed.

Lemma has_text_strToken (x : gostring) : Forall has_text (strToken x).
Proof.
  destruct x as [|c x]; simpl; constructor; [|constructor].
  intros _. discriminate.
Qed.

Lemma has_text_deferred (content : gostring) : Forall has_text (deferred content).
Proof.
  unfold deferred. destruct content as [|c x]; simpl; constructor; [|constructor].
  intros _. discriminate.
Qed.

Lemma closes_matched_deferred depth (content : gostring) :
  closes_matched depth (deferred content) = true.
Proof. unfold deferred. now destruct (0 <? length content). Qed.

Lemma has_text_sent (x : gostring) (t : token) :
  typ t <> tokString -> Forall has_text (strToken x ++ [t]).
Proof.
  intros Ht. apply Forall_app. split; [apply has_text_strToken|].
  constructor; [|constructor]. intros E. now elim Ht.
Qed.

Lemma lex_step_sent vc content off sent vc' content' off' :
  (0 <= vc)%Z ->
  lex_step vc content off = Continue sent vc' content' off' ->
  Forall has_text sent /\ (0 <= vc')%Z /\
  forall lex, closes_matched (Z.to_nat vc') lex = true ->
              closes_matched (Z.to_nat vc) (sent ++ lex) = true.
Proof.
  intros Hvc. unfold lex_step.
  destruct (IndexAny (skipn off content) (trigger_set vc)) as [i|] eqn:Hi;
    [|discriminate].
  apply IndexAny_Some in Hi as (c & Hc & Htrig).
  rewrite nth_error_skipn, Nat.add_comm in Hc. rewrite Hc.
  destruct (Ascii.eqb c ":") eqn:E1; [|destruct (Ascii.eqb c "}") eqn:E2].
  - intros H. lex_cases;
      (split; [apply has_text_sent; discriminate|]); (split; [lia|]);
      intros lex Hlex; rewrite <- app_assoc, closes_matched_strToken; exact Hlex.
  - assert (Hpos : (0 < vc)%Z).
    { unfold trigger_set in Htrig. destruct (vc =? 0)%Z eqn:E0; [|lia].
      apply dollar_only in Htrig. subst c. discriminate. }
    intros H. injection H as <- <- <- <-.
    split; [apply has_text_sent; discriminate|]. split; [lia|].
    intros lex Hlex. rewrite <- app_assoc, closes_matched_strToken. simpl.
    replace (Z.to_nat vc) with (S (Z.to_nat (vc - 1))) by lia. exact Hlex.
  - intros H. lex_cases; try (split; [constructor|]; split; [lia|]; intros lex Hlex; exact Hlex).
    split; [apply has_text_sent; discriminate|]. split; [lia|].
    intros lex Hlex. rewrite <- app_assoc, closes_matched_strToken. simpl.
    replace (Z.to_nat (vc + 1)) with (S (Z.to_nat vc)) in Hlex by lia. exact Hlex.
Qed.

Lemma lex_loop_tokens fuel vc content off toks :
  (0 <= vc)%Z ->
  lex_loop fuel vc content off = Some toks ->
  Forall has_text toks /\ closes_matched (Z.to_nat vc) toks = true.
Proof.
  revert vc content off toks.
  induction fuel as [|fuel IH]; intros vc content off toks Hvc; [discriminate|].
  simpl. destruct (0 <? length content).
  2:{ intros H. injection H as <-.
      split; [apply has_text_deferred|apply closes_matched_deferred]. }
  destruct (lex_step vc content off) as [|sent vc' content' off'|] eqn:Hs.
  - intros H. injection H as <-.
    split; [apply has_text_deferred|apply closes_matched_deferred].
  - destruct (lex_step_sent _ _ _ _ _ _ _ Hvc Hs) as (Hsent & Hvc' & Hclose).
    destruct (lex_loop fuel vc' content' off') as [rest|] eqn:Hrest; [|discriminate].
    intros H. injection H as <-.
    destruct (IH _ _ _ _ Hvc' Hrest) as [Htext Hm].
    split; [now apply Forall_app|now apply Hclose].
  - discriminate.
Qed.

Lemma lexer_tokens (input : gostring) (toks : list token) :
  lexer input = Some toks ->
  Forall has_text toks /\ closes_matched 0 toks = true.
Proof. apply (lex_loop_tokens (S (length input)) 0 input 0). lia. Qed.

Section Engine.
Context {T : Types} {K : Collaborators}.

(** ** The stack of the parser *)

Lemma well_stacked_cons depth stack :
  well_stacked depth stack -> exists s below, stack = s :: below.
Proof.
  destruct depth, stack as [|s below]; simpl; try tauto; eauto.
Qed.

Lemma well_stacked_replace depth s s' below :
  isvar s' = isvar s -> st s' = st s ->
  well_stacked depth (s :: below) -> well_stacked depth (s' :: below).
Proof.
  intros Hv Hs. destruct depth; simpl.
  - destruct below; [|tauto]. now rewrite Hv, Hs.
  - now rewrite Hv.
Qed.

Lemma isvar_append_piece s piece : isvar (append_piece s piece) = isvar s.
Proof. unfold append_piece. now destruct (st s). Qed.

Lemma st_append_piece s piece : st (append_piece s piece) = st s.
Proof. unfold append_piece. now destruct (st s). Qed.

Lemma finalize_expansion_frame s pathSep e :
  isvar s = true -> finalize s pathSep = Err e ->
  e = errors_New (go "empty expansion").
Proof.
  unfold finalize. intros ->. simpl.
  destruct (length (pieces_left s) =? 0); [congruence|].
  destruct (st s); [|discriminate].
  destruct (pieces_left s) as [|[] [|]]; discriminate.
Qed.

Section Frames.
Variable pathSep : gostring.
Variable P : varEvaler -> Prop.
Hypothesis P_text : forall s, s <> [] -> P (constExp s).
Hypothesis P_finalize :
  forall s e, frame_holds P s -> finalize s pathSep = Ok e -> P e.

Lemma frame_holds_append s piece :
  frame_holds P s -> P piece -> frame_holds P (append_piece s piece).
Proof.
  intros [Hl Hr] Hp. unfold append_piece, frame_holds.
  destruct (st s); simpl; split; try assumption;
    apply Forall_app; split; try assumption; now constructor.
Qed.

Lemma parser_loop_frames lex :
  forall depth stack,
    Forall has_text lex -> closes_matched depth lex = true ->
    well_stacked depth stack -> Forall (frame_holds P) stack ->
    exists r, parser_loop lex pathSep stack = Some r /\
      match r with
      | Ok stack' =>
          (exists d, well_stacked d stack') /\ Forall (frame_holds P) stack'
      | Err e => e <> fatal_state
      end.
Proof.
  induction lex as [|tok lex IH]; intros depth stack Htext Hm Hst Hfr.
  - exists (Ok stack). simpl. eauto.
  - inversion Htext as [|? ? Htok Htext']; subst.
    destruct (well_stacked_cons _ _ Hst) as (s & below & ->).
    inversion Hfr as [|? ? Hs Hbelow]; subst.
    simpl in Hm |- *. destruct (typ tok) eqn:Htyp.
    + apply (IH (S depth)); try assumption.
      * simpl. now split.
      * constructor; [|assumption]. split; constructor.
    + destruct depth as [|d]; [discriminate|].
      destruct Hst as [Hv Hst].
      destruct (finalize s pathSep) as [piece|e] eqn:Hfin.
      * destruct (well_stacked_cons _ _ Hst) as (s1 & below1 & ->).
        inversion Hbelow as [|? ? Hs1 Hbelow1]; subst.
        apply (IH d); try assumption.
        -- apply (well_stacked_replace d s1); trivial;
             [apply isvar_append_piece|apply st_append_piece].
        -- constructor; [|assumption].
           apply frame_holds_append; [assumption|]. now apply (P_finalize s).
      * exists (Err e). split; [reflexivity|].
        rewrite (finalize_expansion_frame _ _ _ Hv Hfin). discriminate.
    + destruct (isvar s) eqn:Hv; simpl.
      2:{ eexists. split; [reflexivity|]. discriminate. }
      destruct (st s) eqn:Hside.
      2:{ eexists. split; [reflexivity|]. discriminate. }
      destruct depth as [|d].
      { simpl in Hst. destruct below; [|tauto]. destruct Hst. congruence. }
      apply (IH (S d)); try assumption.
      * simpl. split; [reflexivity|]. apply Hst.
      * constructor; [|assumption]. exact Hs.
    + apply (IH depth); try assumption.
      * apply (well_stacked_replace depth s); trivial;
          [apply isvar_append_piece|apply st_append_piece].
      * constructor; [|assumption].
        apply frame_holds_append; [assumption|]. apply P_text. now apply Htok.
Qed.

Lemma parseVarExp_frames lex :
  Forall has_text lex -> closes_matched 0 lex = true ->
  exists r, parseVarExp lex pathSep = Some r /\
    match r with
    | Ok e => P e \/ exists ps, e = splice ps /\ length ps <> 1 /\ Forall P ps
    | Err e => e <> fatal_state
    end.
Proof.
  intros Htext Hm. unfold parseVarExp.
  destruct (parser_loop_frames lex 0 [mkParseState stLeft false [] [] []] Htext Hm)
    as (r & -> & Hr).
  - simpl. now split.
  - constructor; [|constructor]. split; constructor.
  - destruct r as [stack|e]; [|now exists (Err e)].
    destruct Hr as [[d Hst] Hfr].
    destruct (1 <? length stack) eqn:Hlen.
    { eexists. split; [reflexivity|]. discriminate. }
    apply Nat.ltb_ge in Hlen.
    destruct (well_stacked_cons _ _ Hst) as (root & below & ->).
    destruct below; [|simpl in Hlen; lia].
    inversion Hfr as [|? ? [Hl _] _]; subst. simpl.
    destruct (pieces_left root) as [|r [|r' rest]] eqn:Hps.
    + eexists. split; [reflexivity|]. right. exists []. now repeat split.
    + eexists. split; [reflexivity|]. left. now inversion Hl.
    + eexists. split; [reflexivity|]. right. exists (r :: r' :: rest).
      repeat split; [discriminate|assumption].
Qed.

End Frames.

(** ** The parser returns, and never for a stray close *)


(** ** References are built from text *)

Lemma refs_from_text_splice pathSep ps :
  Forall (refs_from_text pathSep) ps -> refs_from_text pathSep (splice ps).
Proof. induction 1; simpl; auto. Qed.

Lemma text_pieces_refs pathSep ps :
  Forall (text_piece pathSep) ps -> Forall (refs_from_text pathSep) ps.
Proof. apply Forall_impl. now intros e [H _]. Qed.

Lemma refs_from_text_extract pathSep ps :
  Forall (text_piece pathSep) ps -> refs_from_text pathSep (extract ps).
Proof.
  intros H. apply text_pieces_refs in H.
  destruct ps as [|p [|q rest]]; simpl extract.
  - exact I.
  - now inversion H.
  - now apply refs_from_text_splice.
Qed.

Lemma text_piece_finalize pathSep s e :
  frame_holds (text_piece pathSep) s -> finalize s pathSep = Ok e ->
  text_piece pathSep e.
Proof.
  intros [Hl Hr]. unfold finalize.
  destruct (negb (isvar s)); [discriminate|]. simpl pieces.
  destruct (pieces_left s) as [|p rest] eqn:Hps; [discriminate|].
  change (length (p :: rest) =? 0) with false. cbv iota zeta.
  destruct (st s).
  - pose proof (text_pieces_refs _ _ Hl) as Hrefs.
    destruct p as [str| | |]; [destruct rest as [|q rest]|..];
      intros H; injection H as <-; (split; [|discriminate]);
      try (split; [now apply refs_from_text_splice|exact I]).
    inversion Hl as [|? ? [_ Hstr] _]; subst.
    exists str. split; [now apply Hstr|reflexivity].
  - intros H. injection H as <-. split; [|discriminate].
    change (refs_from_text pathSep (extract (p :: rest)) /\
            refs_from_text pathSep (extract (pieces_right s))).
    split; now apply refs_from_text_extract.
Qed.

Lemma text_piece_text pathSep (s : gostring) :
  s <> [] -> text_piece pathSep (constExp s).
Proof. intros Hs. split; [exact I|]. intros s0 E. now injection E as <-. Qed.

Lemma parseSplice_refs_from_text input pathSep e :
  parseSplice input pathSep = Some (Ok e) -> refs_from_text pathSep e.
Proof.
  unfold parseSplice. destruct (lexer input) as [lex|] eqn:Hlex; [|discriminate].
  destruct (lexer_tokens _ _ Hlex) as [Htext Hm].
  destruct (parseVarExp_frames pathSep (text_piece pathSep)
              (text_piece_text pathSep) (text_piece_finalize pathSep)
              lex Htext Hm) as (r & -> & Hr).
  intros H. injection H as ->.
  destruct Hr as [[Hr _]|(ps & -> & _ & Hps)]; [exact Hr|].
  apply refs_from_text_splice. now apply text_pieces_refs.
Qed.

(** ** The shape of the tree *)









(** ** Only the empty input leaves the root frame empty *)







(** ** The lexer claims *)

Lemma expand_flush (input text pathSep : gostring) cfg opts :
  lexer input = Some (deferred text) ->
  expand input pathSep cfg opts = Some (Ok text).
Proof.
  intros H. unfold expand, parseSplice. rewrite H. now destruct text.
Qed.


(** C7.  An input without [$] expands to itself, with no failure, whatever
    the configuration node, the fallback roots, the resolver callbacks and
    the path separator are. *)
Theorem expand_plain_text (input pathSep : gostring) (cfg : option Config)
    (opts : options) :
  ~ In "$"%char input ->
  expand input pathSep cfg opts = Some (Ok input).
Proof.
  intros H. apply expand_flush. now apply lexer_no_dollar.
Qed.



(** ** The parser claims *)



(** C10.  [finalize] refuses an expansion frame whose left side is empty
    with the error "empty expansion", as when "${}" or "${:}" is parsed; and
    in the tree of every successful parse each [reference] node holds the
    path of a non-empty text. *)
Theorem empty_expansion_refused :
  (forall s pathSep,
      isvar s = true -> pieces s stLeft = [] ->
      finalize s pathSep = Err (errors_New (go "empty expansion")))
  /\ (forall pathSep,
         parseSplice (go "${}") pathSep =
           Some (Err (errors_New (go "empty expansion"))) /\
         parseSplice (go "${:}") pathSep =
           Some (Err (errors_New (go "empty expansion"))))
  /\ (forall input pathSep e,
         parseSplice input pathSep = Some (Ok e) -> refs_from_text pathSep e).
Proof.
  repeat split.
  - intros s pathSep Hv Hl. unfold finalize. now rewrite Hv, Hl.
  - intros input pathSep e. apply parseSplice_refs_from_text.
Qed.

(** ** The operators *)

Lemma eval_opDefault l r pathSep cfg opts :
  eval (expansion l r pathSep opDefault) cfg opts =
  match eval l cfg opts with
  | None => None
  | Some (Err _) => eval_right r cfg opts
  | Some (Ok path) =>
      if gostring_eqb path [] then eval_right r cfg opts
      else
        match reference_eval (parsePath path pathSep) cfg opts with
        | Err _ => eval_right r cfg opts
        | Ok v => if gostring_eqb v [] then eval_right r cfg opts else Some (Ok v)
        end
  end.
Proof. reflexivity. Qed.

Lemma eval_opAlternative l r pathSep cfg opts :
  eval (expansion l r pathSep opAlternative) cfg opts =
  match eval l cfg opts with
  | None => None
  | Some (Err _) => Some (Ok [])
  | Some (Ok path) =>
      if gostring_eqb path [] then Some (Ok [])
      else
        match resolve (parsePath path pathSep) cfg opts with
        | Err _ | Ok None => Some (Ok [])
        | Ok (Some _) => eval_right r cfg opts
        end
  end.
Proof. reflexivity. Qed.

Lemma eval_opError l r pathSep cfg opts :
  eval (expansion l r pathSep opError) cfg opts =
  match eval l cfg opts with
  | None => None
  | Some (Err _) => user_error (eval_right r cfg opts)
  | Some (Ok path) =>
      if gostring_eqb path [] then user_error (eval_right r cfg opts)
      else
        match reference_eval (parsePath path pathSep) cfg opts with
        | Err _ => user_error (eval_right r cfg opts)
        | Ok str =>
            if gostring_eqb str [] then user_error (eval_right r cfg opts)
            else Some (Ok str)
        end
  end.
Proof. reflexivity. Qed.

Lemma eval_constExp (s : gostring) cfg opts :
  eval (constExp s) cfg opts = Some (Ok s).
Proof. reflexivity. Qed.

Lemma go_text (c : ascii) (s : string) : go (String c s) <> [].
Proof. discriminate. Qed.

Lemma gostring_eqb_text (s : gostring) : s <> [] -> gostring_eqb s [] = false.
Proof. destruct s; [intros H; now elim H|reflexivity]. Qed.

Lemma reference_eval_absent Path cfg opts :
  (forall v, resolve Path cfg opts <> Ok (Some v)) ->
  exists err, reference_eval Path cfg opts = Err err.
Proof.
  intros H. unfold reference_eval.
  destruct (resolve Path cfg opts) as [[v|]|err]; eauto. now elim (H v).
Qed.

(** C2.  An expansion with the operator [:] evaluates to its right side
    whenever its left side fails or evaluates to the empty string; otherwise
    the reference built from the left string is evaluated, and the result
    is the right side when that fails or is empty, and the value of the
    reference otherwise.  "${missing:default}" evaluates to "default" when
    nothing resolves [missing]. *)
Theorem default_operator (l r : varEvaler) (pathSep : gostring)
    (cfg : option Config) (opts : options) :
  let e := expansion l (Some r) pathSep opDefault in
  (forall err, eval l cfg opts = Some (Err err) ->
               eval e cfg opts = eval r cfg opts)
  /\ (eval l cfg opts = Some (Ok []) -> eval e cfg opts = eval r cfg opts)
  /\ (forall path,
         eval l cfg opts = Some (Ok path) -> path <> [] ->
         (forall err, reference_eval (parsePath path pathSep) cfg opts = Err err ->
                      eval e cfg opts = eval r cfg opts)
         /\ (reference_eval (parsePath path pathSep) cfg opts = Ok [] ->
             eval e cfg opts = eval r cfg opts)
         /\ (forall v, reference_eval (parsePath path pathSep) cfg opts = Ok v ->
                       v <> [] -> eval e cfg opts = Some (Ok v)))
  /\ ((forall v, resolve (parsePath (go "missing") pathSep) cfg opts <> Ok (Some v)) ->
      expand (go "${missing:default}") pathSep cfg opts = Some (Ok (go "default"))).
Proof.
  intros e. unfold e. rewrite eval_opDefault.
  split; [|split; [|split; [intros path Hl Hp; repeat split|]]].
  - now intros err ->.
  - now intros ->.
  - intros err Href. rewrite Hl, (gostring_eqb_text _ Hp). now rewrite Href.
  - intros Href. rewrite Hl, (gostring_eqb_text _ Hp). now rewrite Href.
  - intros v Href Hv. rewrite Hl, (gostring_eqb_text _ Hp), Href.
    now rewrite (gostring_eqb_text _ Hv).
  - intros Habs. apply reference_eval_absent in Habs as [err Herr].
    change (expand (go "${missing:default}") pathSep cfg opts) with
      (eval (expansion (constExp (go "missing")) (Some (constExp (go "default")))
                       pathSep opDefault) cfg opts).
    rewrite eval_opDefault, eval_constExp, (gostring_eqb_text _ (go_text _ _)).
    now rewrite Herr.
Qed.

(** C3.  An expansion with the operator [:?] returns the value of the
    reference built from its left side when the left side evaluates to a
    non-empty string and that reference evaluates to a non-empty string; the
    right side is not evaluated then (the result is the same for every right
    side, also a missing one).  In every other case the right side is
    evaluated: its failure propagates, and otherwise the expansion fails
    with the error whose message is the string of the right side.
    "${missing:?boom}" fails with the message "boom" when nothing resolves
    [missing]. *)
Theorem error_operator (l r : varEvaler) (pathSep : gostring)
    (cfg : option Config) (opts : options) :
  let e := expansion l (Some r) pathSep opError in
  (forall path str right,
      eval l cfg opts = Some (Ok path) -> path <> [] ->
      reference_eval (parsePath path pathSep) cfg opts = Ok str -> str <> [] ->
      eval (expansion l right pathSep opError) cfg opts = Some (Ok str))
  /\ (forall err, eval l cfg opts = Some (Err err) ->
                  eval e cfg opts = user_error (eval r cfg opts))
  /\ (eval l cfg opts = Some (Ok []) ->
      eval e cfg opts = user_error (eval r cfg opts))
  /\ (forall path,
         eval l cfg opts = Some (Ok path) -> path <> [] ->
         (forall err, reference_eval (parsePath path pathSep) cfg opts = Err err ->
                      eval e cfg opts = user_error (eval r cfg opts))
         /\ (reference_eval (parsePath path pathSep) cfg opts = Ok [] ->
             eval e cfg opts = user_error (eval r cfg opts)))
  /\ (forall msg, eval r cfg opts = Some (Ok msg) ->
                  user_error (eval r cfg opts) = Some (Err (errors_New msg)))
  /\ (forall err, eval r cfg opts = Some (Err err) ->
                  user_error (eval r cfg opts) = Some (Err err))
  /\ ((forall v, resolve (parsePath (go "missing") pathSep) cfg opts <> Ok (Some v)) ->
      expand (go "${missing:?boom}") pathSep cfg opts =
      Some (Err (errors_New (go "boom")))).
Proof.
  intros e. unfold e.
  split; [|split; [|split; [|split; [intros path Hl Hp; split|repeat split]]]].
  - intros path str right Hl Hp Href Hs. rewrite eval_opError, Hl.
    now rewrite (gostring_eqb_text _ Hp), Href, (gostring_eqb_text _ Hs).
  - intros err Hl. now rewrite eval_opError, Hl.
  - intros Hl. now rewrite eval_opError, Hl.
  - intros err Href. now rewrite eval_opError, Hl, (gostring_eqb_text _ Hp), Href.
  - intros Href. now rewrite eval_opError, Hl, (gostring_eqb_text _ Hp), Href.
  - now intros msg ->.
  - now intros err ->.
  - intros Habs. apply reference_eval_absent in Habs as [err Herr].
    change (expand (go "${missing:?boom}") pathSep cfg opts) with
      (eval (expansion (constExp (go "missing")) (Some (constExp (go "boom")))
                       pathSep opError) cfg opts).
    rewrite eval_opError, eval_constExp, (gostring_eqb_text _ (go_text _ _)).
    now rewrite Herr.
Qed.

(** C4.  An expansion with the operator [:+] evaluates to the empty string,
    with no failure and without evaluating its right side (the result is the
    same for every right side, also a missing one), when its left side fails
    or is empty and when the reference built from the left string fails to
    resolve or resolves to no value.  When the reference resolves to a value
    the result is the evaluation of the right side; the value is only
    resolved, never converted to a string.  "${present:+alt}" evaluates to
    "alt" when [present] resolves to a value and to the empty string when it
    does not. *)
Theorem alternative_operator (l : varEvaler) (pathSep : gostring)
    (cfg : option Config) (opts : options) :
  (forall err right,
      eval l cfg opts = Some (Err err) ->
      eval (expansion l right pathSep opAlternative) cfg opts = Some (Ok []))
  /\ (forall right,
         eval l cfg opts = Some (Ok []) ->
         eval (expansion l right pathSep opAlternative) cfg opts = Some (Ok []))
  /\ (forall path,
         eval l cfg opts = Some (Ok path) -> path <> [] ->
         (forall err right,
             resolve (parsePath path pathSep) cfg opts = Err err ->
             eval (expansion l right pathSep opAlternative) cfg opts = Some (Ok []))
         /\ (forall right,
                resolve (parsePath path pathSep) cfg opts = Ok None ->
                eval (expansion l right pathSep opAlternative) cfg opts = Some (Ok []))
         /\ (forall v r,
                resolve (parsePath path pathSep) cfg opts = Ok (Some v) ->
                eval (expansion l (Some r) pathSep opAlternative) cfg opts =
                eval r cfg opts))
  /\ (forall v,
         resolve (parsePath (go "present") pathSep) cfg opts = Ok (Some v) ->
         expand (go "${present:+alt}") pathSep cfg opts = Some (Ok (go "alt")))
  /\ ((forall v, resolve (parsePath (go "present") pathSep) cfg opts <> Ok (Some v)) ->
      expand (go "${present:+alt}") pathSep cfg opts = Some (Ok [])).
Proof.
  split; [|split; [|split; [intros path Hl Hp; repeat split|split]]].
  - intros err right Hl. now rewrite eval_opAlternative, Hl.
  - intros right Hl. now rewrite eval_opAlternative, Hl.
  - intros err right Hr.
    now rewrite eval_opAlternative, Hl, (gostring_eqb_text _ Hp), Hr.
  - intros right Hr.
    now rewrite eval_opAlternative, Hl, (gostring_eqb_text _ Hp), Hr.
  - intros v r Hr.
    now rewrite eval_opAlternative, Hl, (gostring_eqb_text _ Hp), Hr.
  - intros v Hr.
    change (expand (go "${present:+alt}") pathSep cfg opts) with
      (eval (expansion (constExp (go "present")) (Some (constExp (go "alt")))
                       pathSep opAlternative) cfg opts).
    rewrite eval_opAlternative, eval_constExp, (gostring_eqb_text _ (go_text _ _)).
    now rewrite Hr.
  - intros Habs.
    change (expand (go "${present:+alt}") pathSep cfg opts) with
      (eval (expansion (constExp (go "present")) (Some (constExp (go "alt")))
                       pathSep opAlternative) cfg opts).
    rewrite eval_opAlternative, eval_constExp, (gostring_eqb_text _ (go_text _ _)).
    destruct (resolve (parsePath (go "present") pathSep) cfg opts)
      as [[v|]|err] eqn:Hr; try reflexivity. now elim (Habs v).
Qed.

(** ** Reference resolution *)

Lemma resolve_trees_decides Path opts tried :
  forall cfg pending F rest,
    cfg :: pending = tried ++ F :: rest ->
    Forall (lookup_fails Path opts) tried ->
    resolve_trees Path opts cfg pending = resolve_trees Path opts F rest.
Proof.
  induction tried as [|t tried IH]; intros cfg pending F rest E Hfail.
  - simpl in E. now injection E as -> ->.
  - simpl in E. injection E as -> ->.
    inversion Hfail as [|? ? (root & err & Hroot & Hget) Hfail']; subst.
    destruct (tried ++ F :: rest) as [|top pending'] eqn:E;
      [destruct tried; discriminate|].
    simpl. rewrite Hroot, Hget. now apply IH.
Qed.

Lemma resolve_trees_all_fail Path opts pending :
  forall cfg,
    Forall (lookup_fails Path opts) (cfg :: pending) ->
    exists err, resolve_trees Path opts cfg pending = inr (Some err).
Proof.
  induction pending as [|top pending IH]; intros cfg Hfail;
    inversion Hfail as [|? ? (root & err & Hroot & Hget) Hfail']; subst;
    simpl; rewrite Hroot, Hget; [eauto|now apply IH].
Qed.

Lemma try_resolvers_first key l :
  forall f rest err w,
    Forall (callback_fails key) l -> f key = Ok w ->
    try_resolvers key (l ++ f :: rest) err = Ok (Some (newString key w)).
Proof.
  induction l as [|g l IH]; intros f rest err w Hfail Hf; simpl.
  - now rewrite Hf.
  - inversion Hfail as [|? ? [e He] Hfail']; subst. rewrite He. now apply IH.
Qed.

Lemma try_resolvers_all_fail key l :
  forall err,
    Forall (callback_fails key) l -> l <> [] ->
    exists err', try_resolvers key l err = Err err'.
Proof.
  induction l as [|g l IH]; intros err Hfail Hne; [now elim Hne|].
  inversion Hfail as [|? ? [e He] Hfail']; subst. simpl. rewrite He.
  destruct l as [|h l]; [simpl; eauto|]. now apply IH.
Qed.

Lemma resolve_after_break Path cfg opts err :
  resolve_trees Path opts cfg (rev (env opts)) = inr err ->
  resolve Path cfg opts =
  try_resolvers (Path_String Path) (rev (resolvers opts)) err.
Proof.
  intros H. unfold resolve. rewrite H.
  destruct (resolvers opts); reflexivity.
Qed.

(** C1, as the code has it.  [resolve] looks the path up from the root
    ancestor of the configuration node and then from the fallback roots,
    the one supplied last first, each from its own root, and moves on to the
    next tree only when a lookup fails.  The first tree whose lookup does
    not fail decides: a present value is returned, whatever the callbacks
    could answer; the nil value ends the search of the trees and leaves the
    answer to the callbacks, the remaining fallback roots being skipped.  A
    tree that is nil makes resolution fail with [ErrMissing].  When every
    lookup fails the callbacks are called, the one registered last first,
    and the first that answers wins; when none answers, resolution fails. *)
Theorem resolve_precedence (Path : cfgPath) (cfg : option Config)
    (opts : options) :
  let key := Path_String Path in
  let trees := cfg :: rev (env opts) in
  (forall tried F rest root v,
      trees = tried ++ F :: rest ->
      Forall (lookup_fails Path opts) tried ->
      cfgRoot F = Some root -> GetValue Path root opts = Ok (Some v) ->
      resolve Path cfg opts = Ok (Some v))
  /\ (forall tried F rest root,
         trees = tried ++ F :: rest ->
         Forall (lookup_fails Path opts) tried ->
         cfgRoot F = Some root -> GetValue Path root opts = Ok None ->
         resolve Path cfg opts = try_resolvers key (rev (resolvers opts)) None)
  /\ (forall tried rest,
         trees = tried ++ None :: rest ->
         Forall (lookup_fails Path opts) tried ->
         resolve Path cfg opts = Err ErrMissing)
  /\ (forall earlier f later w err,
         resolvers opts = earlier ++ f :: later ->
         Forall (callback_fails key) later -> f key = Ok w ->
         try_resolvers key (rev (resolvers opts)) err =
         Ok (Some (newString key w)))
  /\ (forall earlier f later w,
         Forall (lookup_fails Path opts) trees ->
         resolvers opts = earlier ++ f :: later ->
         Forall (callback_fails key) later -> f key = Ok w ->
         resolve Path cfg opts = Ok (Some (newString key w)))
  /\ (Forall (lookup_fails Path opts) trees ->
      Forall (callback_fails key) (resolvers opts) ->
      exists err, resolve Path cfg opts = Err err).
Proof.
  intros key trees.
  assert (Hcb : forall earlier f later w err,
             resolvers opts = earlier ++ f :: later ->
             Forall (callback_fails key) later -> f key = Ok w ->
             try_resolvers key (rev (resolvers opts)) err =
             Ok (Some (newString key w))).
  { intros earlier f later w err E Hlater Hf.
    rewrite E, rev_app_distr. simpl. rewrite <- app_assoc. simpl.
    apply try_resolvers_first; [now apply Forall_rev|exact Hf]. }
  split; [|split; [|split; [|split; [exact Hcb|split]]]].
  - intros tried F rest root v E Hfail Hroot Hget. unfold resolve.
    rewrite (resolve_trees_decides Path opts tried _ _ F rest E Hfail).
    destruct rest; simpl; now rewrite Hroot, Hget.
  - intros tried F rest root E Hfail Hroot Hget. apply resolve_after_break.
    rewrite (resolve_trees_decides Path opts tried _ _ F rest E Hfail).
    destruct rest; simpl; now rewrite Hroot, Hget.
  - intros tried rest E Hfail. unfold resolve.
    rewrite (resolve_trees_decides Path opts tried _ _ None rest E Hfail).
    now destruct rest.
  - intros earlier f later w Hfail E Hlater Hf.
    destruct (resolve_trees_all_fail Path opts _ _ Hfail) as [err Herr].
    rewrite (resolve_after_break _ _ _ _ Herr). now apply (Hcb earlier f later).
  - intros Hfail Hsilent.
    destruct (resolve_trees_all_fail Path opts _ _ Hfail) as [err Herr].
    rewrite (resolve_after_break _ _ _ _ Herr).
    destruct (resolvers opts) as [|g gs] eqn:E; [simpl; eauto|].
    apply try_resolvers_all_fail; [now apply Forall_rev|].
    simpl. intros E'. apply app_eq_nil in E' as [_ E']. discriminate.
Qed.

End Engine.

(** * More of the engine *)

Section Coverage.
Context {T : Types} {K : Collaborators}.

(** ** The root of a tree *)

Lemma cfgRoot_loop_root (c : Config) : Parent (cfgRoot_loop c) = None.
Proof.
  revert c. fix IH 1. intros [fs [p|]]; simpl.
  - apply IH.
  - reflexivity.
Qed.

Lemma cfgRoot_loop_fixed (c : Config) : Parent c = None -> cfgRoot_loop c = c.
Proof. destruct c as [fs [p|]]; simpl; [discriminate|reflexivity]. Qed.

(** X1.  [cfgRoot] is nil exactly for nil; otherwise it is a node without a
    parent, it is the node itself when that has no parent and the root of
    the parent otherwise, and taking the root twice changes nothing. *)
Theorem cfgRoot_is_root (cfg : option Config) :
  (cfgRoot cfg = None <-> cfg = None)
  /\ (forall root, cfgRoot cfg = Some root -> Parent root = None)
  /\ (forall c, Parent c = None -> cfgRoot (Some c) = Some c)
  /\ (forall c p, Parent c = Some p -> cfgRoot (Some c) = cfgRoot (Some p))
  /\ cfgRoot (cfgRoot cfg) = cfgRoot cfg.
Proof.
  repeat split.
  - destruct cfg; [discriminate|reflexivity].
  - now intros ->.
  - intros root H. destruct cfg as [c|]; [|discriminate].
    injection H as <-. apply cfgRoot_loop_root.
  - intros c H. simpl. now rewrite cfgRoot_loop_fixed.
  - intros c p H. destruct c as [fs [q|]]; simpl in *; [|discriminate].
    now injection H as ->.
  - destruct cfg as [c|]; [|reflexivity]. simpl.
    now rewrite (cfgRoot_loop_fixed _ (cfgRoot_loop_root c)).
Qed.

(** ** Evaluation looks at the tree, not at the node *)

Lemma resolve_trees_same_root Path opts pending c1 c2 :
  cfgRoot c1 = cfgRoot c2 ->
  resolve_trees Path opts c1 pending = resolve_trees Path opts c2 pending.
Proof. intros H. destruct pending; simpl; now rewrite H. Qed.

Lemma resolve_same_root Path opts c1 c2 :
  cfgRoot c1 = cfgRoot c2 -> resolve Path c1 opts = resolve Path c2 opts.
Proof.
  intros H. unfold resolve.
  now rewrite (resolve_trees_same_root Path opts (rev (env opts)) c1 c2 H).
Qed.

Lemma reference_eval_same_root Path opts c1 c2 :
  cfgRoot c1 = cfgRoot c2 ->
  reference_eval Path c1 opts = reference_eval Path c2 opts.
Proof.
  intros H. unfold reference_eval. now rewrite (resolve_same_root Path opts c1 c2 H).
Qed.

Lemma eval_splice ps cfg opts :
  eval (splice ps) cfg opts = range_pieces ps cfg opts [].
Proof.
  change (eval (splice ps) cfg opts) with
    ((fix range (ps : list varEvaler) (buf : gostring) :=
        match ps with
        | [] => Some (Ok buf)
        | p :: ps' =>
            match eval p cfg opts with
            | None => None
            | Some (Err err) => Some (Err err)
            | Some (Ok s) => range ps' (buf ++ s)
            end
        end) ps []).
  generalize (@nil ascii). induction ps as [|p ps IH]; intros buf; simpl.
  - reflexivity.
  - destruct (eval p cfg opts) as [[s|err]|]; auto.
Qed.

Lemma eval_computed l r pathSep cfg opts :
  eval (expansion l r pathSep []) cfg opts =
  match eval l cfg opts with
  | None => None
  | Some (Err err) => Some (Err err)
  | Some (Ok path) => Some (reference_eval (parsePath path pathSep) cfg opts)
  end.
Proof. reflexivity. Qed.

Lemma eval_unknown_op l r pathSep op cfg opts :
  known_op op = false -> op <> [] ->
  eval (expansion l r pathSep op) cfg opts =
  Some (Err (fmt_Errorf (go "Unknown expansion op: %v") op)).
Proof.
  unfold known_op. intros H Hne.
  apply orb_false_iff in H as [H H3]. apply orb_false_iff in H as [H1 H2].
  simpl. rewrite H1, H2, H3. now rewrite (gostring_eqb_text _ Hne).
Qed.

Lemma known_op_cases op :
  known_op op = true -> op = opDefault \/ op = opAlternative \/ op = opError.
Proof.
  unfold known_op. intros H.
  apply orb_true_iff in H as [H|H]; [apply orb_true_iff in H as [H|H]|];
    apply gostring_eqb_eq in H; auto.
Qed.

(** Induction on the tree, with the pieces of a [splice] and both sides of
    an [expansion] as premises. *)
Lemma varEvaler_induction (P : varEvaler -> Prop) :
  (forall s, P (constExp s)) ->
  (forall Path, P (reference Path)) ->
  (forall ps, Forall P ps -> P (splice ps)) ->
  (forall l r pathSep op,
      P l -> (forall r', r = Some r' -> P r') -> P (expansion l r pathSep op)) ->
  forall e, P e.
Proof.
  intros Hc Hr Hs He. fix IH 1. intros [s|Path|ps|l r pathSep op].
  - apply Hc.
  - apply Hr.
  - apply Hs.
    exact ((fix all (ps : list varEvaler) : Forall P ps :=
              match ps with
              | [] => Forall_nil P
              | p :: ps' => Forall_cons p (IH p) (all ps')
              end) ps).
  - destruct r as [r0|]; apply He; try apply IH.
    + intros r' E. injection E as <-. apply IH.
    + discriminate.
Qed.

Lemma range_pieces_same_root ps opts c1 c2 :
  Forall (fun p => eval p c1 opts = eval p c2 opts) ps ->
  forall buf, range_pieces ps c1 opts buf = range_pieces ps c2 opts buf.
Proof.
  induction 1 as [|p ps Hp _ IH]; intros buf; simpl; [reflexivity|].
  rewrite Hp. destruct (eval p c2 opts) as [[s|err]|]; auto.
Qed.

(** X2.  Resolution and evaluation read the configuration node only through
    the root of its tree: two nodes with the same root resolve every path
    and evaluate every expression alike. *)
Theorem eval_same_tree (c1 c2 : option Config) (opts : options) :
  cfgRoot c1 = cfgRoot c2 ->
  (forall Path, resolve Path c1 opts = resolve Path c2 opts)
  /\ (forall e, eval e c1 opts = eval e c2 opts).
Proof.
  intros H. split; [intros Path; now apply resolve_same_root|].
  apply varEvaler_induction.
  - reflexivity.
  - intros Path. simpl. now rewrite (reference_eval_same_root Path opts c1 c2 H).
  - intros ps Hps. rewrite !eval_splice. now apply range_pieces_same_root.
  - intros l r pathSep op Hl Hr.
    assert (Hright : eval_right r c1 opts = eval_right r c2 opts).
    { destruct r as [r'|]; [now apply Hr|reflexivity]. }
    destruct (known_op op) eqn:Hop.
    + destruct (known_op_cases _ Hop) as [->|[->| ->]].
      * rewrite !eval_opDefault, Hl, Hright.
        destruct (eval l c2 opts) as [[path|]|]; try reflexivity.
        now rewrite (reference_eval_same_root _ opts c1 c2 H).
      * rewrite !eval_opAlternative, Hl, Hright.
        destruct (eval l c2 opts) as [[path|]|]; try reflexivity.
        now rewrite (resolve_same_root _ opts c1 c2 H).
      * rewrite !eval_opError, Hl, Hright.
        destruct (eval l c2 opts) as [[path|]|]; try reflexivity.
        now rewrite (reference_eval_same_root _ opts c1 c2 H).
    + destruct op as [|c op].
      * rewrite !eval_computed, Hl.
        destruct (eval l c2 opts) as [[path|]|]; try reflexivity.
        now rewrite (reference_eval_same_root _ opts c1 c2 H).
      * now rewrite !eval_unknown_op by (assumption || discriminate).
Qed.

(** ** Resolution at its edges *)

Lemma try_resolvers_last key l :
  forall f err e,
    Forall (callback_fails key) l -> f key = Err e ->
    try_resolvers key (l ++ [f]) err = Err e.
Proof.
  induction l as [|g l IH]; intros f err e Hfail Hf; simpl.
  - now rewrite Hf.
  - inversion Hfail as [|? ? [e' He'] Hfail']; subst. rewrite He'. now apply IH.
Qed.

(** X3.  With a nil configuration node resolution fails with [ErrMissing]
    whatever fallback roots and callbacks there are; with a node, no
    fallback root and no callback it is the lookup from the root of the
    node's tree, its nil value and its failure included. *)
Theorem resolve_plain_lookup (Path : cfgPath) (opts : options) :
  resolve Path None opts = Err ErrMissing
  /\ (forall c,
         env opts = [] -> resolvers opts = [] ->
         resolve Path (Some c) opts = GetValue Path (cfgRoot_loop c) opts).
Proof.
  split.
  - unfold resolve. now destruct (rev (env opts)).
  - intros c He Hr. unfold resolve. rewrite He, Hr. simpl.
    now destruct (GetValue Path (cfgRoot_loop c) opts) as [[v|]|err].
Qed.

(** X4.  When every lookup and every callback fails, resolution fails with
    the failure met last: that of the callback registered first, or, without
    callbacks, that of the lookup in the fallback root supplied first. *)
Theorem resolve_last_failure (Path : cfgPath) (cfg : option Config)
    (opts : options) :
  let key := Path_String Path in
  let trees := cfg :: rev (env opts) in
  (forall f later e,
      Forall (lookup_fails Path opts) trees ->
      resolvers opts = f :: later ->
      Forall (callback_fails key) later -> f key = Err e ->
      resolve Path cfg opts = Err e)
  /\ (forall tried last root e,
         resolvers opts = [] ->
         trees = tried ++ [last] ->
         Forall (lookup_fails Path opts) tried ->
         cfgRoot last = Some root -> GetValue Path root opts = Err e ->
         resolve Path cfg opts = Err e).
Proof.
  intros key trees. split.
  - intros f later e Hfail E Hlater Hf.
    destruct (resolve_trees_all_fail Path opts _ _ Hfail) as [err Herr].
    rewrite (resolve_after_break _ _ _ _ Herr), E. simpl.
    apply try_resolvers_last; [now apply Forall_rev|exact Hf].
  - intros tried last root e Hr E Hfail Hroot Hget. unfold resolve.
    rewrite (resolve_trees_decides Path opts tried _ _ last [] E Hfail), Hr.
    simpl. now rewrite Hroot, Hget.
Qed.

(** ** Concatenation *)

Lemma range_pieces_ok ps cfg opts strs :
  Forall2 (fun p s => eval p cfg opts = Some (Ok s)) ps strs ->
  forall buf, range_pieces ps cfg opts buf = Some (Ok (buf ++ concat strs)).
Proof.
  induction 1 as [|p s ps strs Hp _ IH]; intros buf; simpl.
  - now rewrite app_nil_r.
  - rewrite Hp, IH. now rewrite app_assoc.
Qed.

Lemma range_pieces_fail before cfg opts strs :
  Forall2 (fun p s => eval p cfg opts = Some (Ok s)) before strs ->
  forall p after err buf,
    eval p cfg opts = Some (Err err) ->
    range_pieces (before ++ p :: after) cfg opts buf = Some (Err err).
Proof.
  induction 1 as [|q s before strs Hq _ IH]; intros p after err buf Hp; simpl.
  - now rewrite Hp.
  - rewrite Hq. now apply IH.
Qed.

(** X5.  A [splice] whose pieces all evaluate yields their strings joined in
    order; when a piece fails, the [splice] fails with the failure of the
    first such piece, whatever the pieces after it are. *)
Theorem splice_eval (cfg : option Config) (opts : options) :
  (forall ps strs,
      Forall2 (fun p s => eval p cfg opts = Some (Ok s)) ps strs ->
      eval (splice ps) cfg opts = Some (Ok (concat strs)))
  /\ (forall before strs p after err,
         Forall2 (fun p s => eval p cfg opts = Some (Ok s)) before strs ->
         eval p cfg opts = Some (Err err) ->
         eval (splice (before ++ p :: after)) cfg opts = Some (Err err)).
Proof.
  split.
  - intros ps strs H. rewrite eval_splice.
    now rewrite (range_pieces_ok ps cfg opts strs H).
  - intros before strs p after err H Hp. rewrite eval_splice.
    now apply (range_pieces_fail before cfg opts strs H).
Qed.

Lemma eval_extract ps cfg opts :
  eval (extract ps) cfg opts = eval (splice ps) cfg opts.
Proof.
  destruct ps as [|p [|q ps]]; try reflexivity.
  rewrite eval_splice. simpl.
  now destruct (eval p cfg opts) as [[s|err]|].
Qed.

(** X6.  How a sequence of pieces is wrapped never shows in evaluation: the
    collapse of [extract] evaluates as the [splice] of the same pieces, and
    the [reference] that [finalize] builds for a single constant evaluates
    as the computed path over that constant. *)
Theorem wrapping_is_transparent (pathSep : gostring) (cfg : option Config)
    (opts : options) :
  (forall ps, eval (extract ps) cfg opts = eval (splice ps) cfg opts)
  /\ (forall str,
         eval (newReference (parsePath str pathSep)) cfg opts =
         eval (expansion (splice [constExp str]) None pathSep []) cfg opts).
Proof.
  split.
  - intros ps. apply eval_extract.
  - intros str. now rewrite eval_computed, eval_splice.
Qed.

(** ** The token stream *)

Lemma stream_ok_strToken depth (x : gostring) (lex : list token) :
  stream_ok depth (strToken x ++ lex) = stream_ok depth lex.
Proof. now destruct x. Qed.

Lemma stream_ok_deferred depth (content : gostring) :
  stream_ok depth (deferred content) = true.
Proof. unfold deferred. now destruct content. Qed.

Lemma stream_ok_sep depth (t : token) (lex : list token) :
  typ t = tokSep -> known_op (val t) = true -> 0 < depth ->
  stream_ok depth lex = true -> stream_ok depth (t :: lex) = true.
Proof.
  intros Ht Hop Hd Hlex. simpl. rewrite Ht, Hop, Hlex.
  apply Nat.ltb_lt in Hd. now rewrite Hd.
Qed.

Lemma trigger_inside vc (c : ascii) :
  (0 <= vc)%Z -> existsb (Ascii.eqb c) (trigger_set vc) = true ->
  c <> "$"%char -> (0 < vc)%Z.
Proof.
  intros Hvc Htrig Hc. unfold trigger_set in Htrig.
  destruct (vc =? 0)%Z eqn:E0; [|lia].
  apply dollar_only in Htrig. now elim Hc.
Qed.

Lemma lex_step_stream vc content off sent vc' content' off' :
  (0 <= vc)%Z ->
  lex_step vc content off = Continue sent vc' content' off' ->
  (0 <= vc')%Z /\
  forall lex, stream_ok (Z.to_nat vc') lex = true ->
              stream_ok (Z.to_nat vc) (sent ++ lex) = true.
Proof.
  intros Hvc. unfold lex_step.
  destruct (IndexAny (skipn off content) (trigger_set vc)) as [i|] eqn:Hi;
    [|discriminate].
  apply IndexAny_Some in Hi as (c & Hc & Htrig).
  rewrite nth_error_skipn, Nat.add_comm in Hc. rewrite Hc.
  destruct (Ascii.eqb c ":") eqn:E1; [|destruct (Ascii.eqb c "}") eqn:E2].
  - assert (Hpos : (0 < vc)%Z).
    { apply (trigger_inside vc c Hvc Htrig).
      apply Ascii.eqb_eq in E1. subst c. discriminate. }
    intros H. lex_cases; (split; [lia|]); intros lex Hlex;
      rewrite <- app_assoc, stream_ok_strToken;
      apply stream_ok_sep; try reflexivity; try assumption; lia.
  - assert (Hpos : (0 < vc)%Z).
    { apply (trigger_inside vc c Hvc Htrig).
      apply Ascii.eqb_eq in E2. subst c. discriminate. }
    intros H. injection H as <- <- <- <-. split; [lia|].
    intros lex Hlex. rewrite <- app_assoc, stream_ok_strToken. simpl.
    replace (Z.to_nat vc) with (S (Z.to_nat (vc - 1))) by lia. exact Hlex.
  - intros H. lex_cases; try (split; [lia|]; intros lex Hlex; exact Hlex).
    split; [lia|].
    intros lex Hlex. rewrite <- app_assoc, stream_ok_strToken. simpl.
    replace (Z.to_nat (vc + 1)) with (S (Z.to_nat vc)) in Hlex by lia. exact Hlex.
Qed.

Lemma lex_loop_stream fuel vc content off toks :
  (0 <= vc)%Z ->
  lex_loop fuel vc content off = Some toks ->
  stream_ok (Z.to_nat vc) toks = true.
Proof.
  revert vc content off toks.
  induction fuel as [|fuel IH]; intros vc content off toks Hvc; [discriminate|].
  simpl. destruct (0 <? length content).
  2:{ intros H. injection H as <-. apply stream_ok_deferred. }
  destruct (lex_step vc content off) as [|sent vc' content' off'|] eqn:Hs.
  - intros H. injection H as <-. apply stream_ok_deferred.
  - destruct (lex_step_stream _ _ _ _ _ _ _ Hvc Hs) as (Hvc' & Hstream).
    destruct (lex_loop fuel vc' content' off') as [rest|] eqn:Hrest; [|discriminate].
    intros H. injection H as <-. apply Hstream. now apply (IH _ _ _ _ Hvc' Hrest).
  - discriminate.
Qed.

(** X7.  Whatever the input, the lexer returns a token list, and in it
    string tokens carry text, separator tokens carry one of the three
    operators and stand inside an open expansion, and close tokens never
    outnumber the open tokens before them. *)
Theorem lexer_stream (input : gostring) :
  exists lex, lexer input = Some lex /\ stream_ok 0 lex = true.
Proof.
  destruct (lexer_total input) as [lex Hlex]. exists lex. split; [exact Hlex|].
  apply (lex_loop_stream (S (length input)) 0 input 0 lex); [lia|exact Hlex].
Qed.

(** ** Frames and their operators *)

Lemma frame_ready_append (P : varEvaler -> Prop) s piece :
  frame_ready P s -> P piece -> frame_ready P (append_piece s piece).
Proof.
  intros [[Hl Hr] Hop] Hp. unfold append_piece, frame_ready, frame_holds.
  destruct (st s) eqn:Hs; simpl; (split; [split|]); try assumption;
    try (apply Forall_app; split; [assumption|now constructor]);
    discriminate.
Qed.

Section Ready.
Variable pathSep : gostring.
Variable P : varEvaler -> Prop.
Hypothesis P_text : forall s, s <> [] -> P (constExp s).
Hypothesis P_finalize :
  forall s e, frame_ready P s -> finalize s pathSep = Ok e -> P e.

Lemma parser_loop_ready lex :
  forall depth stack,
    stream_ok depth lex = true ->
    well_stacked depth stack -> Forall (frame_ready P) stack ->
    exists r, parser_loop lex pathSep stack = Some r /\
      match r with
      | Ok stack' =>
          (exists d, well_stacked d stack') /\ Forall (frame_ready P) stack'
      | Err e =>
          e = errors_New (go "empty expansion") \/
          e = errors_New (go "unexpected ':'")
      end.
Proof.
  induction lex as [|tok lex IH]; intros depth stack Hm Hst Hfr.
  - exists (Ok stack). simpl. eauto.
  - destruct (well_stacked_cons _ _ Hst) as (s & below & ->).
    inversion Hfr as [|? ? Hs Hbelow]; subst.
    simpl in Hm |- *. destruct (typ tok) eqn:Htyp.
    + apply (IH (S depth)); try assumption.
      * simpl. now split.
      * constructor; [|assumption]. split; [split; constructor|discriminate].
    + destruct depth as [|d]; [discriminate|].
      destruct Hst as [Hv Hst].
      destruct (finalize s pathSep) as [piece|e] eqn:Hfin.
      * destruct (well_stacked_cons _ _ Hst) as (s1 & below1 & ->).
        inversion Hbelow as [|? ? Hs1 Hbelow1]; subst.
        apply (IH d); try assumption.
        -- apply (well_stacked_replace d s1); trivial;
             [apply isvar_append_piece|apply st_append_piece].
        -- constructor; [|assumption].
           apply frame_ready_append; [assumption|]. now apply (P_finalize s).
      * exists (Err e). split; [reflexivity|]. left.
        apply (finalize_expansion_frame _ _ _ Hv Hfin).
    + apply andb_true_iff in Hm as [Hm Hlex].
      apply andb_true_iff in Hm as [Hd Hop]. apply Nat.ltb_lt in Hd.
      destruct depth as [|d]; [lia|]. destruct Hst as [Hv Hst].
      rewrite Hv. simpl.
      destruct (st s) eqn:Hside.
      2:{ eexists. split; [reflexivity|]. now right. }
      apply (IH (S d)); try assumption.
      * simpl. now split.
      * constructor; [|assumption]. split; [exact (proj1 Hs)|]. now intros _.
    + apply andb_true_iff in Hm as [Htext Hlex].
      apply negb_true_iff in Htext.
      apply (IH depth); try assumption.
      * apply (well_stacked_replace depth s); trivial;
          [apply isvar_append_piece|apply st_append_piece].
      * constructor; [|assumption].
        apply frame_ready_append; [assumption|]. apply P_text.
        intros E. rewrite E in Htext. discriminate.
Qed.

Lemma parseVarExp_ready lex :
  stream_ok 0 lex = true ->
  exists r, parseVarExp lex pathSep = Some r /\
    match r with
    | Ok e => P e \/ exists ps, e = splice ps /\ Forall P ps
    | Err e => In e parse_errors
    end.
Proof.
  intros Hm. unfold parseVarExp.
  destruct (parser_loop_ready lex 0 [mkParseState stLeft false [] [] []] Hm)
    as (r & -> & Hr).
  - simpl. now split.
  - constructor; [|constructor]. split; [split; constructor|discriminate].
  - destruct r as [stack|e].
    2:{ exists (Err e). split; [reflexivity|].
        destruct Hr as [-> | ->]; simpl; auto. }
    destruct Hr as [[d Hst] Hfr].
    destruct (1 <? length stack) eqn:Hlen.
    { eexists. split; [reflexivity|]. simpl. auto. }
    apply Nat.ltb_ge in Hlen.
    destruct (well_stacked_cons _ _ Hst) as (root & below & ->).
    destruct below; [|simpl in Hlen; lia].
    inversion Hfr as [|? ? [[Hl _] _] _]; subst. simpl.
    destruct (pieces_left root) as [|r [|r' rest]] eqn:Hps.
    + eexists. split; [reflexivity|]. right. exists []. now split.
    + eexists. split; [reflexivity|]. left. now inversion Hl.
    + eexists. split; [reflexivity|]. right. exists (r :: r' :: rest). now split.
Qed.

End Ready.

Lemma parseSplice_ready pathSep (P : varEvaler -> Prop) input :
  (forall s, s <> [] -> P (constExp s)) ->
  (forall s e, frame_ready P s -> finalize s pathSep = Ok e -> P e) ->
  exists r, parseSplice input pathSep = Some r /\
    match r with
    | Ok e => P e \/ exists ps, e = splice ps /\ Forall P ps
    | Err e => In e parse_errors
    end.
Proof.
  intros Htext Hfin. unfold parseSplice.
  destruct (lexer_stream input) as (lex & -> & Hlex).
  now apply parseVarExp_ready.
Qed.


(** ** Well-formed trees *)

Lemma well_formed_forallb ps :
  Forall (fun e => well_formed e = true) ps -> forallb well_formed ps = true.
Proof. induction 1 as [|p ps Hp _ IH]; simpl; [reflexivity|now rewrite Hp, IH]. Qed.

Lemma well_formed_extract ps :
  Forall (fun e => well_formed e = true) ps -> well_formed (extract ps) = true.
Proof.
  intros H. destruct ps as [|p [|q rest]]; simpl extract.
  - reflexivity.
  - now inversion H.
  - now apply well_formed_forallb.
Qed.

Lemma well_formed_finalize pathSep s e :
  frame_ready (fun e => well_formed e = true) s ->
  finalize s pathSep = Ok e -> well_formed e = true.
Proof.
  intros [[Hl Hr] Hop]. unfold finalize.
  destruct (negb (isvar s)); [discriminate|]. simpl pieces.
  destruct (pieces_left s) as [|p rest] eqn:Hps; [discriminate|].
  change (length (p :: rest) =? 0) with false. cbv iota zeta.
  destruct (st s).
  - pose proof (well_formed_forallb _ Hl) as Hall.
    destruct p as [str| | |]; [destruct rest as [|q rest]|..];
      intros H; injection H as <-; try reflexivity;
      simpl in Hall |- *; now rewrite ?Hall.
  - intros H. injection H as <-.
    pose proof (well_formed_extract _ Hl) as H1.
    pose proof (well_formed_extract _ Hr) as H2.
    change (well_formed (extract (p :: rest)) &&
            well_formed (extract (pieces_right s)) && known_op (op s) = true).
    now rewrite H1, H2, Hop.
Qed.

(** X9.  In the tree of every successful parse an [expansion] without a
    right side has the empty operator, and an [expansion] with a right side
    has one of the operators [:], [:+] and [:?]. *)
Theorem parse_tree_well_formed (input pathSep : gostring) (e : varEvaler) :
  parseSplice input pathSep = Some (Ok e) -> well_formed e = true.
Proof.
  intros H.
  destruct (parseSplice_ready pathSep (fun e => well_formed e = true) input
              (fun _ _ => eq_refl) (well_formed_finalize pathSep))
    as (r & Hr & Hcase).
  rewrite H in Hr. injection Hr as <-.
  destruct Hcase as [He|(ps & -> & Hps)]; [exact He|].
  now apply well_formed_forallb.
Qed.




(** ** Lexing an expansion *)

Lemma inner_text_trigger vc (p : gostring) :
  inner_text p = true ->
  forall d, In d p -> existsb (Ascii.eqb d) (trigger_set vc) = false.
Proof.
  unfold inner_text. intros H d Hd.
  rewrite forallb_forall in H. apply H in Hd. apply negb_true_iff in Hd.
  unfold trigger_set. destruct (vc =? 0)%Z; [|exact Hd].
  simpl in Hd |- *. apply orb_false_iff in Hd as [Hd _]. now rewrite Hd.
Qed.

Lemma outer_text_trigger (p : gostring) :
  ~ In "$"%char p ->
  forall d, In d p -> existsb (Ascii.eqb d) (trigger_set 0) = false.
Proof. exact (@not_dollar p). Qed.

Lemma dollar_trigger vc : existsb (Ascii.eqb "$") (trigger_set vc) = true.
Proof. unfold trigger_set. now destruct (vc =? 0)%Z. Qed.

Lemma inside_trigger vc (c : ascii) :
  vc <> 0%Z -> existsb (Ascii.eqb c) (go "$:}") = true ->
  existsb (Ascii.eqb c) (trigger_set vc) = true.
Proof.
  intros Hvc H. unfold trigger_set.
  destruct (vc =? 0)%Z eqn:E; [|exact H]. apply Z.eqb_eq in E. now elim Hvc.
Qed.

Lemma firstn_prefix (p x : gostring) : firstn (length p + 0) (p ++ x) = p.
Proof. now rewrite Nat.add_0_r, firstn_app, firstn_all, Nat.sub_diag, app_nil_r. Qed.

Lemma skipn_prefix (p x : gostring) (a : ascii) :
  skipn (length p + 0 + 1) (p ++ a :: x) = x.
Proof.
  rewrite Nat.add_0_r.
  replace (length p + 1) with (length (p ++ [a]))
    by (rewrite length_app; reflexivity).
  change (p ++ a :: x) with (p ++ [a] ++ x).
  now rewrite app_assoc, skipn_app, skipn_all, Nat.sub_diag.
Qed.

Lemma skipn_prefix2 (p x : gostring) (a b : ascii) :
  skipn (length p + 0 + 1 + 1) (p ++ a :: b :: x) = x.
Proof.
  rewrite Nat.add_0_r.
  replace (length p + 1 + 1) with (length (p ++ [a; b]))
    by (rewrite length_app; simpl; lia).
  change (p ++ a :: b :: x) with (p ++ [a; b] ++ x).
  now rewrite app_assoc, skipn_app, skipn_all, Nat.sub_diag.
Qed.

Lemma nth_prefix (p x : gostring) (a : ascii) :
  nth_error (p ++ a :: x) (length p + 0) = Some a.
Proof. now rewrite Nat.add_0_r, nth_error_app2, Nat.sub_diag by lia. Qed.

Lemma nth_prefix1 (p x : gostring) (a b : ascii) :
  nth_error (p ++ a :: b :: x) (length p + 0 + 1) = Some b.
Proof.
  rewrite Nat.add_0_r, nth_error_app2 by lia.
  now replace (length p + 1 - length p) with 1 by lia.
Qed.

Lemma length_prefix1 (p x : gostring) (a b : ascii) :
  (length (p ++ a :: b :: x) <=? length p + 0 + 1) = false.
Proof. apply Nat.leb_gt. rewrite length_app. simpl. lia. Qed.

Lemma lex_step_open vc (p rest : gostring) :
  (forall d, In d p -> existsb (Ascii.eqb d) (trigger_set vc) = false) ->
  lex_step vc (p ++ "$"%char :: "{"%char :: rest) 0 =
  Continue (strToken p ++ [openToken]) (vc + 1) rest 0.
Proof.
  intros Hp. unfold lex_step.
  change (skipn 0 (p ++ "$"%char :: "{"%char :: rest))
    with (p ++ "$"%char :: "{"%char :: rest).
  rewrite (IndexAny_first p _ _ "$"%char Hp (dollar_trigger vc)). cbv zeta.
  rewrite nth_prefix. cbv iota beta. simpl Ascii.eqb. cbv iota.
  rewrite length_prefix1, nth_prefix1. simpl Ascii.eqb. cbv iota.
  now rewrite firstn_prefix, skipn_prefix2.
Qed.

Lemma lex_step_close vc (p rest : gostring) :
  vc <> 0%Z -> inner_text p = true ->
  lex_step vc (p ++ "}"%char :: rest) 0 =
  Continue (strToken p ++ [closeToken]) (vc - 1) rest 0.
Proof.
  intros Hvc Hp. unfold lex_step.
  change (skipn 0 (p ++ "}"%char :: rest)) with (p ++ "}"%char :: rest).
  rewrite (IndexAny_first p _ _ "}"%char (inner_text_trigger vc p Hp)
             (inside_trigger vc "}"%char Hvc eq_refl)). cbv zeta.
  rewrite nth_prefix. simpl Ascii.eqb. cbv iota.
  now rewrite firstn_prefix, skipn_prefix.
Qed.

Lemma lex_step_sep vc (p rest : gostring) (c : ascii) :
  vc <> 0%Z -> inner_text p = true ->
  lex_step vc (p ++ ":"%char :: c :: rest) 0 =
  if Ascii.eqb c "+" then
    Continue (strToken p ++ [sepAltToken]) vc rest 0
  else if Ascii.eqb c "?" then
    Continue (strToken p ++ [sepErrToken]) vc rest 0
  else Continue (strToken p ++ [sepDefToken]) vc (c :: rest) 0.
Proof.
  intros Hvc Hp. unfold lex_step.
  change (skipn 0 (p ++ ":"%char :: c :: rest)) with (p ++ ":"%char :: c :: rest).
  rewrite (IndexAny_first p _ _ ":"%char (inner_text_trigger vc p Hp)
             (inside_trigger vc ":"%char Hvc eq_refl)). cbv zeta.
  rewrite nth_prefix. simpl Ascii.eqb. cbv iota.
  rewrite length_prefix1, nth_prefix1.
  now rewrite firstn_prefix, skipn_prefix, skipn_prefix2.
Qed.

Lemma lex_loop_continue fuel vc content off sent vc' content' off' :
  0 < length content -> off <= length content ->
  length content - off < fuel ->
  lex_step vc content off = Continue sent vc' content' off' ->
  lex_loop fuel vc content off =
  option_map (app sent) (lex_loop (S (length content')) vc' content' off').
Proof.
  intros Hlen Hoff Hfuel Hs. destruct fuel as [|fuel]; [lia|].
  simpl lex_loop at 1. apply Nat.ltb_lt in Hlen. rewrite Hlen, Hs.
  apply lex_step_progress in Hs as [Hoff' Hlt]; [|exact Hoff].
  f_equal. apply lex_loop_fuel; lia.
Qed.

Lemma lex_loop_inner_text fuel vc (body : gostring) :
  inner_text body = true ->
  lex_loop (S fuel) vc body 0 = Some (deferred body).
Proof.
  intros Hb. simpl. destruct (0 <? length body); [|reflexivity].
  unfold lex_step. change (skipn 0 body) with body.
  now rewrite (IndexAny_none body _ (inner_text_trigger vc body Hb)).
Qed.

Lemma lexer_open (pre X : gostring) :
  ~ In "$"%char pre ->
  lexer (pre ++ go "${" ++ X) =
  option_map (app (strToken pre ++ [openToken])) (lex_loop (S (length X)) 1 X 0).
Proof.
  intros Hpre. change (pre ++ go "${" ++ X) with (pre ++ "$"%char :: "{"%char :: X).
  apply (lexer_unfold _ (strToken pre ++ [openToken]) 1%Z X 0).
  - rewrite length_app. simpl. lia.
  - apply (lex_step_open 0 pre X). now apply outer_text_trigger.
Qed.

Lemma lex_loop_close (p post : gostring) :
  inner_text p = true -> ~ In "$"%char post ->
  lex_loop (S (length (p ++ "}"%char :: post))) 1 (p ++ "}"%char :: post) 0 =
  Some (strToken p ++ closeToken :: deferred post).
Proof.
  intros Hp Hpost.
  rewrite (lex_loop_continue _ 1%Z _ 0 (strToken p ++ [closeToken]) 0%Z post 0).
  - change (lex_loop (S (length post)) 0 post 0) with (lexer post).
    rewrite (lexer_no_dollar post Hpost). simpl. now rewrite <- app_assoc.
  - rewrite length_app. simpl. lia.
  - lia.
  - lia.
  - now apply (lex_step_close 1 p post).
Qed.

Lemma lex_step_operator (key op arg post : gostring) :
  known_op op = true -> inner_text key = true ->
  (op = opDefault -> plain_start arg = true) ->
  lex_step 1 (key ++ op ++ arg ++ "}"%char :: post) 0 =
  Continue (strToken key ++ [mkToken tokSep op]) 1 (arg ++ "}"%char :: post) 0.
Proof.
  intros Hop Hkey Hstart.
  destruct (known_op_cases _ Hop) as [->|[->| ->]].
  - specialize (Hstart eq_refl).
    change (key ++ opDefault ++ arg ++ "}"%char :: post)
      with (key ++ ":"%char :: (arg ++ "}"%char :: post)).
    destruct arg as [|a arg]; simpl app.
    + now rewrite (lex_step_sep 1 key post "}"%char) by (discriminate || assumption).
    + rewrite (lex_step_sep 1 key (arg ++ "}"%char :: post) a)
        by (discriminate || assumption).
      simpl in Hstart. apply andb_true_iff in Hstart as [H1 H2].
      apply negb_true_iff in H1, H2. now rewrite H1, H2.
  - change (key ++ opAlternative ++ arg ++ "}"%char :: post)
      with (key ++ ":"%char :: "+"%char :: (arg ++ "}"%char :: post)).
    now rewrite (lex_step_sep 1 key (arg ++ "}"%char :: post) "+"%char)
      by (discriminate || assumption).
  - change (key ++ opError ++ arg ++ "}"%char :: post)
      with (key ++ ":"%char :: "?"%char :: (arg ++ "}"%char :: post)).
    now rewrite (lex_step_sep 1 key (arg ++ "}"%char :: post) "?"%char)
      by (discriminate || assumption).
Qed.

Lemma lexer_reference (pre path post : gostring) :
  ~ In "$"%char pre -> inner_text path = true -> ~ In "$"%char post ->
  lexer (pre ++ go "${" ++ path ++ go "}" ++ post) =
  Some (strToken pre ++ openToken :: strToken path ++ closeToken :: deferred post).
Proof.
  intros Hpre Hpath Hpost.
  rewrite (lexer_open pre _ Hpre).
  change (path ++ go "}" ++ post) with (path ++ "}"%char :: post).
  rewrite (lex_loop_close path post Hpath Hpost). simpl.
  now rewrite <- app_assoc.
Qed.

Lemma lexer_operator (pre key op arg post : gostring) :
  ~ In "$"%char pre -> known_op op = true -> inner_text key = true ->
  inner_text arg = true -> (op = opDefault -> plain_start arg = true) ->
  ~ In "$"%char post ->
  lexer (pre ++ go "${" ++ key ++ op ++ arg ++ go "}" ++ post) =
  Some (strToken pre ++ openToken :: strToken key ++ mkToken tokSep op ::
        strToken arg ++ closeToken :: deferred post).
Proof.
  intros Hpre Hop Hkey Harg Hstart Hpost.
  rewrite (lexer_open pre _ Hpre).
  change (key ++ op ++ arg ++ go "}" ++ post)
    with (key ++ op ++ arg ++ "}"%char :: post).
  rewrite (lex_loop_continue _ 1%Z _ 0 (strToken key ++ [mkToken tokSep op])
             1%Z (arg ++ "}"%char :: post) 0).
  - rewrite (lex_loop_close arg post Harg Hpost). simpl.
    now rewrite <- !app_assoc.
  - destruct (known_op_cases _ Hop) as [->|[->| ->]];
      rewrite !length_app; simpl; lia.
  - lia.
  - lia.
  - now apply lex_step_operator.
Qed.

(** ** Expansions in their context *)

Lemma eval_in_context pre post E cfg opts :
  eval (extract (text_pieces pre ++ E :: text_pieces post)) cfg opts =
  in_context pre post (eval E cfg opts).
Proof.
  rewrite eval_extract, eval_splice.
  destruct pre as [|a pre]; simpl;
    destruct (eval E cfg opts) as [[s|err]|]; try reflexivity;
    destruct post as [|b post]; simpl; now rewrite ?app_nil_r, <- ?app_assoc.
Qed.

(** X11.  An expansion that is opened and not closed makes the parse fail
    with "missing '}'": so does every input made of text, [${] and text
    without [$], [:] and [}]. *)
Theorem unterminated_expansion (pre body pathSep : gostring) :
  ~ In "$"%char pre -> inner_text body = true ->
  parseSplice (pre ++ go "${" ++ body) pathSep =
  Some (Err (errors_New (go "missing '}'"))).
Proof.
  intros Hpre Hbody. unfold parseSplice.
  rewrite (lexer_open pre body Hpre), (lex_loop_inner_text _ 1 body Hbody).
  destruct pre, body; reflexivity.
Qed.

(** X12.  A reference between two texts: for a non-empty path without [$],
    [:] and [}], the input [pre${path}post] parses to the reference to the
    path between the constants of the texts that are not empty, and expands
    to the value of the reference between the two texts, or fails as the
    reference does. *)
Theorem reference_in_context (pre path post pathSep : gostring)
    (cfg : option Config) (opts : options) :
  ~ In "$"%char pre -> inner_text path = true -> path <> [] ->
  ~ In "$"%char post ->
  parseSplice (pre ++ go "${" ++ path ++ go "}" ++ post) pathSep =
    Some (Ok (extract (text_pieces pre ++
                       reference (parsePath path pathSep) :: text_pieces post)))
  /\ expand (pre ++ go "${" ++ path ++ go "}" ++ post) pathSep cfg opts =
     in_context pre post (Some (reference_eval (parsePath path pathSep) cfg opts)).
Proof.
  intros Hpre Hpath Hne Hpost.
  assert (Hparse :
    parseSplice (pre ++ go "${" ++ path ++ go "}" ++ post) pathSep =
    Some (Ok (extract (text_pieces pre ++
                       reference (parsePath path pathSep) :: text_pieces post)))).
  { unfold parseSplice. rewrite (lexer_reference pre path post Hpre Hpath Hpost).
    destruct path as [|c path]; [now elim Hne|].
    destruct pre, post; reflexivity. }
  split; [exact Hparse|].
  unfold expand. rewrite Hparse. apply eval_in_context.
Qed.

(** X13.  An expansion with an operator between two texts: the operator is
    chosen by the character after the first colon ([+], [?], or anything
    else for the default, whose right side therefore cannot start with [+]
    or [?]); the key before it, non-empty, and the text after it up to the
    closing brace, which may be empty, become the constant sides of the
    [expansion], and the input expands to the result of that [expansion]
    between the two texts. *)
Theorem operator_in_context (pre key op arg post pathSep : gostring)
    (cfg : option Config) (opts : options) :
  ~ In "$"%char pre -> known_op op = true ->
  inner_text key = true -> key <> [] -> inner_text arg = true ->
  (op = opDefault -> plain_start arg = true) ->
  ~ In "$"%char post ->
  let E := expansion (constExp key) (Some (constExp arg)) pathSep op in
  parseSplice (pre ++ go "${" ++ key ++ op ++ arg ++ go "}" ++ post) pathSep =
    Some (Ok (extract (text_pieces pre ++ E :: text_pieces post)))
  /\ expand (pre ++ go "${" ++ key ++ op ++ arg ++ go "}" ++ post) pathSep cfg opts =
     in_context pre post (eval E cfg opts).
Proof.
  intros Hpre Hop Hkey Hne Harg Hstart Hpost E.
  assert (Hparse :
    parseSplice (pre ++ go "${" ++ key ++ op ++ arg ++ go "}" ++ post) pathSep =
    Some (Ok (extract (text_pieces pre ++ E :: text_pieces post)))).
  { unfold parseSplice.
    rewrite (lexer_operator pre key op arg post Hpre Hop Hkey Harg Hstart Hpost).
    destruct key as [|c key]; [now elim Hne|].
    destruct pre, arg, post; reflexivity. }
  split; [exact Hparse|].
  unfold expand. rewrite Hparse. apply eval_in_context.
Qed.

Lemma lexer_nested_reference (a path c : gostring) :
  inner_text a = true -> inner_text path = true -> inner_text c = true ->
  lexer (go "${" ++ a ++ go "${" ++ path ++ go "}" ++ c ++ go "}") =
  Some (openToken :: strToken a ++ openToken :: strToken path ++ closeToken ::
        strToken c ++ [closeToken]).
Proof.
  intros Ha Hpath Hc.
  change (go "${" ++ a ++ go "${" ++ path ++ go "}" ++ c ++ go "}")
    with ([] ++ go "${" ++ (a ++ go "${" ++ path ++ go "}" ++ c ++ go "}")).
  rewrite (lexer_open [] _ (fun H => H)).
  change (a ++ go "${" ++ path ++ go "}" ++ c ++ go "}")
    with (a ++ "$"%char :: "{"%char :: (path ++ "}"%char :: (c ++ "}"%char :: []))).
  rewrite (lex_loop_continue _ 1%Z _ 0 (strToken a ++ [openToken]) 2%Z
             (path ++ "}"%char :: (c ++ "}"%char :: [])) 0).
  - rewrite (lex_loop_continue _ 2%Z _ 0 (strToken path ++ [closeToken]) 1%Z
               (c ++ "}"%char :: []) 0).
    + rewrite (lex_loop_close c [] Hc (fun H => H)). simpl.
      now rewrite <- !app_assoc.
    + rewrite length_app. simpl. lia.
    + lia.
    + lia.
    + now apply (lex_step_close 2 path).
  - rewrite length_app. simpl. lia.
  - lia.
  - lia.
  - apply (lex_step_open 1 a). now apply inner_text_trigger.
Qed.

(** X14.  A path computed from a nested reference: for texts without [$],
    [:] and [}], the input [${a${path}c}] parses to the [expansion] without
    operator over the pieces [a], the reference to [path] and [c]; it
    evaluates the inner reference first and then the reference to the path
    spelled by [a], the inner value and [c], and fails as the inner
    reference does. *)
Theorem nested_reference (a path c pathSep : gostring) (cfg : option Config)
    (opts : options) :
  inner_text a = true -> inner_text path = true -> path <> [] ->
  inner_text c = true ->
  parseSplice (go "${" ++ a ++ go "${" ++ path ++ go "}" ++ c ++ go "}") pathSep =
    Some (Ok (expansion
                (splice (text_pieces a ++
                         reference (parsePath path pathSep) :: text_pieces c))
                None pathSep []))
  /\ expand (go "${" ++ a ++ go "${" ++ path ++ go "}" ++ c ++ go "}")
            pathSep cfg opts =
     match reference_eval (parsePath path pathSep) cfg opts with
     | Ok v => Some (reference_eval (parsePath (a ++ v ++ c) pathSep) cfg opts)
     | Err err => Some (Err err)
     end.
Proof.
  intros Ha Hpath Hne Hc.
  assert (Hparse :
    parseSplice (go "${" ++ a ++ go "${" ++ path ++ go "}" ++ c ++ go "}") pathSep =
    Some (Ok (expansion
                (splice (text_pieces a ++
                         reference (parsePath path pathSep) :: text_pieces c))
                None pathSep []))).
  { unfold parseSplice. rewrite (lexer_nested_reference a path c Ha Hpath Hc).
    destruct path as [|d path]; [now elim Hne|].
    destruct a, c; reflexivity. }
  split; [exact Hparse|].
  unfold expand. rewrite Hparse, eval_computed, eval_splice.
  destruct a as [|x a]; simpl;
    destruct (reference_eval (parsePath path pathSep) cfg opts) as [v|err];
    try reflexivity;
    destruct c as [|y c]; simpl; now rewrite ?app_nil_r, <- ?app_assoc.
Qed.

End Coverage.

(** * The properties on the concrete configuration *)

Import Demo.

Ltac no_dollar :=
  let H := fresh in
  intros H; simpl in H;
  repeat (destruct H as [H|H]; [discriminate H|]); exact H.

(** ** C1 *)

Lemma resolve_precedence_witness :
  resolve key primary (mkOptions [older_root] [answering]) =
  Ok (Some (go "from root")).
Proof.
  apply (proj1 (@resolve_precedence demo_types demo_collab key primary (mkOptions [older_root] [answering]))
           [primary] older_root [] (node [(key, Some (go "from root"))])).
  - reflexivity.
  - constructor; [|constructor].
    exists (node [(go "other", Some (go "1"))]), ErrMissing.
    split; reflexivity.
  - reflexivity.
  - reflexivity.
Defined.

(** The key is not bound in the primary tree, a fallback root binds it to a
    value and a callback answers it, and yet the callback's answer is
    returned: the fallback root supplied last binds the key to the nil
    value, which ends the search of the trees. *)
Lemma fallback_root_passed_over :
  lookup_fails key every_channel primary
  /\ GetValue key (node [(key, Some (go "from root"))]) every_channel =
     Ok (Some (go "from root"))
  /\ In older_root (env every_channel)
  /\ In answering (resolvers every_channel)
  /\ answering key = Ok (go "from callback")
  /\ resolve key primary every_channel = Ok (Some (go "from callback"))
  /\ go "from callback" <> go "from root".
Proof.
  repeat split.
  - exists (node [(go "other", Some (go "1"))]), ErrMissing.
    split; reflexivity.
  - now left.
  - now left.
  - discriminate.
Qed.

(** ** C2, C3, C4 *)

Lemma default_operator_witness :
  expand (go "${missing:default}") (go ".") primary no_options =
  Some (Ok (go "default")).
Proof.
  apply (proj2 (proj2 (proj2
           (@default_operator demo_types demo_collab (constExp []) (constExp []) (go ".") primary no_options)))).
  intros v. discriminate.
Defined.

Lemma error_operator_witness :
  expand (go "${missing:?boom}") (go ".") primary no_options =
  Some (Err (errors_New (go "boom"))).
Proof.
  apply (proj2 (proj2 (proj2 (proj2 (proj2 (proj2
           (@error_operator demo_types demo_collab (constExp []) (constExp []) (go ".") primary no_options))))))).
  intros v. discriminate.
Defined.

Lemma alternative_operator_witness :
  expand (go "${present:+alt}") (go ".")
         (tree [(go "present", Some (go "1"))]) no_options =
  Some (Ok (go "alt")).
Proof.
  apply (proj1 (proj2 (proj2 (proj2
           (@alternative_operator demo_types demo_collab (constExp []) (go ".")
              (tree [(go "present", Some (go "1"))]) no_options))))
           (go "1")).
  reflexivity.
Defined.

(** ** C5 *)



(** ** C6, C7, C8 *)


Lemma expand_plain_text_witness :
  expand (go "plain: text}") (go ".") primary every_channel =
  Some (Ok (go "plain: text}")).
Proof.
  apply (@expand_plain_text demo_types demo_collab). no_dollar.
Defined.


(** ** C9 *)



(** ** C10 *)

Lemma empty_expansion_refused_witness :
  refs_from_text (go ".")
    (splice [constExp (go "x"); reference (go "a.b")]).
Proof.
  apply (proj2 (proj2 (@empty_expansion_refused demo_types demo_collab)) (go "x${a.b}") (go ".")).
  reflexivity.
Defined.

(** ** Runs of the engine *)

Example lexer_nested :
  lexer (go "x${a.${b}:+y}$") =
  Some [mkToken tokString (go "x"); openToken; mkToken tokString (go "a.");
        openToken; mkToken tokString (go "b"); closeToken; sepAltToken;
        mkToken tokString (go "y"); closeToken; mkToken tokString (go "$")].
Proof. reflexivity. Qed.

Example parse_unterminated :
  parseSplice (go "${a") (go ".") = Some (Err (errors_New (go "missing '}'"))).
Proof. reflexivity. Qed.

Example parse_second_separator :
  parseSplice (go "${a:b:c}") (go ".") =
  Some (Err (errors_New (go "unexpected ':'"))).
Proof. reflexivity. Qed.

Example parse_reference :
  parseSplice (go "${a.b}") (go ".") = Some (Ok (reference (go "a.b"))).
Proof. reflexivity. Qed.

Example expand_operators :
  expand (go "${key}, ${none:dflt}, ${none:+x}${key:+alt}, $${key}") (go ".")
         older_root no_options =
  Some (Ok (go "from root, dflt, alt, ${key}")).
Proof. reflexivity. Qed.

Example expand_child_of_root :
  expand (go "${key}") (go ".") (child [] older_root) no_options =
  Some (Ok (go "from root")).
Proof. reflexivity. Qed.

Example expand_nil_value :
  expand (go "${key}") (go ".") recent_root no_options =
  Some (Err (fmt_Errorf (go "can not resolve reference: %v") key)).
Proof. reflexivity. Qed.

Example expand_last_callback_first :
  expand (go "${k}") (go ".") primary
         (mkOptions [] [fun _ => Ok (go "first"); fun _ => Ok (go "last"); silent]) =
  Some (Ok (go "last")).
Proof. reflexivity. Qed.

(** * More of the engine on the concrete configuration *)

Lemma cfgRoot_is_root_witness :
  cfgRoot (child [] older_root) = cfgRoot older_root.
Proof.
  apply (proj1 (proj2 (proj2 (proj2
           (@cfgRoot_is_root demo_types None))))
           (@mkConfig demo_types [] older_root) (node [(key, Some (go "from root"))])).
  reflexivity.
Defined.

Lemma eval_same_tree_witness :
  eval (reference key) (child [] older_root) no_options =
  eval (reference key) older_root no_options.
Proof.
  apply (proj2 (@eval_same_tree demo_types demo_collab
                  (child [] older_root) older_root no_options eq_refl)).
Defined.

Lemma resolve_plain_lookup_witness :
  resolve key recent_root no_options =
  GetValue key (cfgRoot_loop (node [(key, None)])) no_options.
Proof.
  apply (proj2 (@resolve_plain_lookup demo_types demo_collab key no_options));
    reflexivity.
Defined.

Lemma resolve_last_failure_witness :
  resolve key primary
          (mkOptions [] [fun _ => Err (errors_New (go "first")); silent]) =
  Err (errors_New (go "first")).
Proof.
  apply (proj1 (@resolve_last_failure demo_types demo_collab key primary
                  (mkOptions [] [fun _ => Err (errors_New (go "first")); silent]))
           (fun _ => Err (errors_New (go "first"))) [silent]).
  - constructor; [|constructor].
    exists (node [(go "other", Some (go "1"))]), ErrMissing. split; reflexivity.
  - reflexivity.
  - constructor; [|constructor]. exists ErrMissing. reflexivity.
  - reflexivity.
Defined.

Lemma splice_eval_witness :
  eval (splice [constExp (go "a"); reference key; constExp (go "b")])
       older_root no_options =
  Some (Ok (concat [go "a"; go "from root"; go "b"])).
Proof.
  apply (proj1 (@splice_eval demo_types demo_collab older_root no_options)).
  repeat constructor.
Defined.

Lemma parse_tree_well_formed_witness :
  well_formed
    (expansion (splice [constExp (go "a."); reference (go "b")]) None (go ".") [])
  = true.
Proof.
  apply (@parse_tree_well_formed demo_types demo_collab (go "${a.${b}}") (go ".")).
  reflexivity.
Defined.

Lemma unterminated_expansion_witness :
  parseSplice (go "ab${cd") (go ".") = Some (Err (errors_New (go "missing '}'"))).
Proof.
  apply (@unterminated_expansion demo_types demo_collab (go "ab") (go "cd") (go ".")).
  - no_dollar.
  - reflexivity.
Defined.

Lemma reference_in_context_witness :
  parseSplice (go "x: ${key}!") (go ".") =
    Some (Ok (splice [constExp (go "x: "); reference key; constExp (go "!")]))
  /\ expand (go "x: ${key}!") (go ".") older_root no_options =
     Some (Ok (go "x: from root!")).
Proof.
  apply (@reference_in_context demo_types demo_collab
           (go "x: ") key (go "!") (go ".") older_root no_options).
  - no_dollar.
  - reflexivity.
  - discriminate.
  - no_dollar.
Defined.

Lemma operator_in_context_witness :
  parseSplice (go "<${none:?no value}>") (go ".") =
    Some (Ok (splice [constExp (go "<");
                      expansion (constExp (go "none"))
                                (Some (constExp (go "no value"))) (go ".") opError;
                      constExp (go ">")]))
  /\ expand (go "<${none:?no value}>") (go ".") older_root no_options =
     Some (Err (errors_New (go "no value"))).
Proof.
  apply (@operator_in_context demo_types demo_collab
           (go "<") (go "none") opError (go "no value") (go ">") (go ".")
           older_root no_options).
  - no_dollar.
  - reflexivity.
  - reflexivity.
  - discriminate.
  - reflexivity.
  - discriminate.
  - no_dollar.
Defined.

Lemma nested_reference_witness :
  parseSplice (go "${k${other}}") (go ".") =
    Some (Ok (expansion (splice [constExp (go "k"); reference (go "other")])
                        None (go ".") []))
  /\ expand (go "${k${other}}") (go ".")
            (tree [(go "other", Some (go "1")); (go "k1", Some (go "found"))])
            no_options =
     Some (Ok (go "found")).
Proof.
  apply (@nested_reference demo_types demo_collab
           (go "k") (go "other") [] (go ".")
           (tree [(go "other", Some (go "1")); (go "k1", Some (go "found"))])
           no_options).
  - reflexivity.
  - reflexivity.
  - discriminate.
  - reflexivity.
Defined.
